(** * Publication management and page hierarchy of the CMS

    A shallow embedding of
    - [cms/core/models/managers.py]: [PublicationManager],
      [PublishedModelManager], [PageBaseManager];
    - [cms/models/base.py]: [PublishedBase], [EntityBase];
    - [cms/apps/pages/models/__init__.py]: [Page].

    Python lists are Rocq lists in the same order ([append] adds at the
    right end, [pop()] and [[-1]] work on the right end).  Exceptions
    are an explicit result type, the thread-local stack of the
    publication manager is threaded through a small state/exception
    monad that also records every mutation of the stack. *)

From Stdlib Require Import ZArith Ascii String.
From stdpp Require Import base option list gmap strings pretty sorting.

Set Default Proof Using "Type".

(** ** Exceptions and results *)

Inductive exn : Type :=
  | PublicationManagementError
  | IndexError
  | AssertionError
  | IntegrityError
  | OtherError (tag : nat).

Inductive result (A : Type) : Type :=
  | Ok (a : A)
  | Raise (e : exn).
Arguments Ok {A} a.
Arguments Raise {A} e.

(** ** Python list primitives used by the manager *)

Module PyList.

(** [l.append(x)] *)
Definition append {A} (l : list A) (x : A) : list A := l ++ [x].

(** [l[-1]]: the last element, [IndexError] on the empty list. *)
Definition getitem_last {A} (l : list A) : result A :=
  match last l with
  | Some x => Ok x
  | None => Raise IndexError
  end.

(** [l.pop()]: removes and returns the last element, [IndexError] on
    the empty list. *)
Definition pop {A} (l : list A) : result (A * list A) :=
  match last l with
  | Some x => Ok (x, removelast l)
  | None => Raise IndexError
  end.

End PyList.

(** ** The publication manager *)

(** [PublicationManager.__init__] : [self._stack = []]. *)
Record PublicationManager : Type := { _stack : list bool }.

Definition PublicationManager_init : PublicationManager := {| _stack := [] |}.

(** A mutation of [_stack], recorded in the order it happens. *)
Inductive mutation : Type :=
  | Push (v : bool)
  | Pop (v : bool).

(** Computations of one thread over its own manager: the outcome, the
    manager afterwards, the mutations performed. *)
Definition M (A : Type) : Type :=
  PublicationManager → result A * PublicationManager * list mutation.

Definition ret {A} (a : A) : M A := λ pm, (Ok a, pm, []).

Definition raise {A} (e : exn) : M A := λ pm, (Raise e, pm, []).

Definition bind {A B} (m : M A) (k : A → M B) : M B := λ pm,
  match m pm with
  | (Ok a, pm1, t1) => let '(r, pm2, t2) := k a pm1 in (r, pm2, t1 ++ t2)
  | (Raise e, pm1, t1) => (Raise e, pm1, t1)
  end.

(** Sequencing of two statements. *)
Definition seq {A B} (m : M A) (k : M B) : M B := bind m (λ _, k).
Infix ">>" := seq (at level 61, left associativity).

(** [try: m  except: h] with a handler for every exception. *)
Definition try_except {A} (m : M A) (h : exn → M A) : M A := λ pm,
  match m pm with
  | (Ok a, pm1, t1) => (Ok a, pm1, t1)
  | (Raise e, pm1, t1) => let '(r, pm2, t2) := h e pm1 in (r, pm2, t1 ++ t2)
  end.

(** [try: m  finally: f]: [f] runs however [m] ends; an exception of
    [f] replaces the outcome of [m]. *)
Definition try_finally {A} (m : M A) (f : M unit) : M A := λ pm,
  let '(r, pm1, t1) := m pm in
  match f pm1 with
  | (Ok _, pm2, t2) => (r, pm2, t1 ++ t2)
  | (Raise e, pm2, t2) => (Raise e, pm2, t1 ++ t2)
  end.

(** [PublicationManager._begin] *)
Definition _begin (select_published : bool) : M unit := λ pm,
  (Ok tt, {| _stack := PyList.append (_stack pm) select_published |},
   [Push select_published]).

(** [PublicationManager.select_published_active] *)
Definition select_published_active : M bool := λ pm,
  match PyList.getitem_last (_stack pm) with
  | Ok v => (Ok v, pm, [])
  | Raise IndexError => (Ok true, pm, [])
  | Raise e => (Raise e, pm, [])
  end.

(** [PublicationManager._end] *)
Definition _end : M unit := λ pm,
  match PyList.pop (_stack pm) with
  | Ok (v, s) => (Ok tt, {| _stack := s |}, [Pop v])
  | Raise IndexError => (Raise PublicationManagementError, pm, [])
  | Raise e => (Raise e, pm, [])
  end.

(** [PublicationManager.select_published], the context manager wrapped
    around the body of its [with] statement. *)
Definition select_published {A} (v : bool) (body : M A) : M A :=
  _begin v >>
  try_finally (try_except body (λ e, raise e)) _end.

(** The value [select_published_active] yields on a manager. *)
Definition active (pm : PublicationManager) : bool :=
  match select_published_active pm with
  | (Ok v, _, _) => v
  | (Raise _, _, _) => true
  end.

(** A call of [_begin] for every value of [vs], in order. *)
Fixpoint begins (vs : list bool) : M unit :=
  match vs with
  | [] => ret tt
  | v :: vs' => _begin v >> begins vs'
  end.

(** [n] calls of [_end] in a row. *)
Fixpoint ends (n : nat) : M unit :=
  match n with
  | 0 => ret tt
  | S n' => _end >> ends n'
  end.

(** Code that touches the publication manager only through [with
    publication_manager.select_published(...)] blocks and through
    [select_published_active]; it may raise, and catch, anything. *)
Inductive Paired : ∀ {A : Type}, M A → Prop :=
  | Paired_ret {A} (a : A) : Paired (ret a)
  | Paired_raise {A} (e : exn) : Paired (@raise A e)
  | Paired_active : Paired select_published_active
  | Paired_bind {A B} (m : M A) (k : A → M B) :
      Paired m → (∀ a, Paired (k a)) → Paired (bind m k)
  | Paired_try {A} (m : M A) (h : exn → M A) :
      Paired m → (∀ e, Paired (h e)) → Paired (try_except m h)
  | Paired_finally {A} (m : M A) (f : M unit) :
      Paired m → Paired f → Paired (try_finally m f)
  | Paired_with {A} (v : bool) (body : M A) :
      Paired body → Paired (select_published v body).

(** The raw calls behind a trace, one after the other: [_begin(v)] for
    a push of [v], [_end()] for a pop. *)
Fixpoint calls (t : list mutation) : M unit :=
  match t with
  | [] => ret tt
  | Push v :: t' => _begin v >> calls t'
  | Pop _ :: t' => _end >> calls t'
  end.

(** Mutation traces in which every push is closed by its own pop. *)
Inductive well_nested : list mutation → Prop :=
  | wn_nil : well_nested []
  | wn_scope v t : well_nested t → well_nested (Push v :: t ++ [Pop v])
  | wn_app t1 t2 : well_nested t1 → well_nested t2 → well_nested (t1 ++ t2).

Definition is_push (c : mutation) : bool :=
  match c with Push _ => true | Pop _ => false end.

Definition pushes (t : list mutation) : nat := length (filter is_push t).
Definition pops (t : list mutation) : nat :=
  length (filter (λ c, negb (is_push c)) t).

(** ** Entities in a hierarchy ([EntityBase]) *)

(** [EntityBase] leaves [parent] and [children] to its subclasses
    (class attributes [parent = None] and [children = ()]), and compares
    entities with the [==] of the model class.  The recursive
    properties follow object references, so they are given fuel:
    [None] stands for a recursion that did not come to an end within
    [fuel] nested calls. *)
Section EntityBase.

Context {E : Type}.
Variable parent : E → option E.
Variable children : E → list E.
Variable equal : E → E → bool.

(** [EntityBase.all_parents] *)
Fixpoint all_parents (fuel : nat) (self : E) : option (list E) :=
  match fuel with
  | 0 => None
  | S fuel' =>
      match parent self with
      | Some p =>
          match all_parents fuel' p with
          | Some ps => Some ([p] ++ ps)
          | None => None
          end
      | None => Some []
      end
  end.

(** [EntityBase.breadcrumbs] *)
Definition breadcrumbs (fuel : nat) (self : E) : option (list E) :=
  match all_parents fuel self with
  | Some parents => Some (reverse parents ++ [self])
  | None => None
  end.

(** One round of the loop of [all_children]:
    [children.append(child); children.extend(child.all_children)]. *)
Definition all_children_step (sub : E → option (list E))
    (acc : option (list E)) (child : E) : option (list E) :=
  match acc with
  | Some cs =>
      match sub child with
      | Some ds => Some ((cs ++ [child]) ++ ds)
      | None => None
      end
  | None => None
  end.

(** [EntityBase.all_children] *)
Fixpoint all_children (fuel : nat) (self : E) : option (list E) :=
  match fuel with
  | 0 => None
  | S fuel' =>
      foldl (all_children_step (all_children fuel')) (Some []) (children self)
  end.

(** [EntityBase.navigation] *)
Definition navigation (self : E) : list E := children self.

(** [EntityBase.siblings] *)
Definition siblings (self : E) : list E :=
  match parent self with
  | Some p => children p
  | None => []
  end.

(** The loop shared by [next] and [prev] over what is left of
    [sibling_iter]: at the first sibling equal to [self] it returns
    [sibling_iter.next()]; a [StopIteration] from either call of
    [next()] leaves the loop, and [None] is returned. *)
Fixpoint scan (self : E) (sibling_iter : list E) : option E :=
  match sibling_iter with
  | [] => None
  | sibling :: sibling_iter' =>
      if equal sibling self then
        match sibling_iter' with
        | [] => None
        | following :: _ => Some following
        end
      else scan self sibling_iter'
  end.

(** [EntityBase.next] *)
Definition next (self : E) : option E := scan self (siblings self).

(** [EntityBase.prev] *)
Definition prev (self : E) : option E :=
  scan self (reverse (siblings self)).

(** [ps] is the chain of parent references that starts at [self] and
    ends at a root: the parent of [self] first, the root last. *)
Fixpoint parent_chain (self : E) (ps : list E) : Prop :=
  match ps with
  | [] => parent self = None
  | p :: ps' => parent self = Some p ∧ parent_chain p ps'
  end.

(** The expansion order in the words of the design: "emit child, then
    emit that child's full subtree, then move to next sibling". *)
Fixpoint descendants_of (fuel : nat) (self : E) : option (list E) :=
  match fuel with
  | 0 => None
  | S fuel' =>
      @concat E <$> mapM (λ child, (child ::.) <$> descendants_of fuel' child)
                      (children self)
  end.

(** [d] is below [p] in the hierarchy. *)
Inductive descendant (p : E) : E → Prop :=
  | descendant_child c : c ∈ children p → descendant p c
  | descendant_deeper c d :
      c ∈ children p → descendant c d → descendant p d.

End EntityBase.

(** ** Pages and the database table *)

(** A row of the page table, with the columns the modelled methods
    read; [Page_url_title] is the column [url_title].  [parent] holds the raw value of the [PageField] column: the
    primary key of the parent page, or [None] for a root.  Timestamps
    are points on the clock, as integers. *)
Record Page : Type := {
  id : option nat;
  site : nat;
  Page_url_title : string;
  parent : option nat;
  order : option nat;
  is_online : bool;
  publication_date : option Z;
  expiry_date : option Z;
}.

#[global] Instance Page_eq_dec : EqDecision Page.
Proof. solve_decision. Defined.

(** A query set, evaluated: the selected rows in their order. *)
Abbreviation QuerySet := (list Page).

(** What a query reads besides the table: the clock
    ([datetime.datetime.now()]) and the current site
    ([Site.objects.get_current()]). *)
Record Env : Type := {
  now : Z;
  current_site : nat;
}.

(** [Meta.ordering = ("order",)]: ascending [order], NULL before every
    number, rows with equal keys in table order. *)
Definition order_leb (a b : option nat) : bool :=
  match a, b with
  | None, _ => true
  | Some _, None => false
  | Some x, Some y => x <=? y
  end.

Fixpoint insert_by_order (p : Page) (qs : QuerySet) : QuerySet :=
  match qs with
  | [] => [p]
  | q :: qs' =>
      if order_leb (order p) (order q) && negb (order_leb (order q) (order p))
      then p :: q :: qs'
      else q :: insert_by_order p qs'
  end.

Definition order_by_order (table : list Page) : QuerySet :=
  foldl (λ acc p, insert_by_order p acc) [] table.

(** [models.Manager.get_query_set]: every row, in the default order. *)
Definition Manager_get_query_set (table : list Page) : QuerySet :=
  order_by_order table.

(** [PublishedBase.select_published]: [queryset.filter(is_online=True)]. *)
Definition PublishedBase_select_published (queryset : QuerySet) : QuerySet :=
  filter (λ p, is_online p = true) queryset.

(** [Q(publication_date=None) | Q(publication_date__lte=now)] *)
Definition publication_started (now : Z) (p : Page) : Prop :=
  match publication_date p with
  | None => True
  | Some d => (d ≤ now)%Z
  end.

(** [Q(expiry_date=None) | Q(expiry_date__gt=now)] *)
Definition not_expired (now : Z) (p : Page) : Prop :=
  match expiry_date p with
  | None => True
  | Some d => (d > now)%Z
  end.

#[global] Instance publication_started_dec now p :
  Decision (publication_started now p).
Proof. unfold publication_started. destruct (publication_date p); apply _. Defined.

#[global] Instance not_expired_dec now p : Decision (not_expired now p).
Proof. unfold not_expired. destruct (expiry_date p); apply _. Defined.

(** [Page.select_published] *)
Definition Page_select_published (now : Z) (queryset : QuerySet) : QuerySet :=
  let queryset := PublishedBase_select_published queryset in
  let queryset := filter (publication_started now) queryset in
  let queryset := filter (not_expired now) queryset in
  queryset.

(** [PublishedModelManager.get_query_set], for the manager of a model
    whose [select_published] is [model_select_published]. *)
Definition PublishedModelManager_get_query_set
    (model_select_published : QuerySet → QuerySet)
    (pm : PublicationManager) (table : list Page) : QuerySet :=
  let queryset := Manager_get_query_set table in
  if active pm then model_select_published queryset else queryset.

(** [PageBaseManager.get_query_set] *)
Definition PageBaseManager_get_query_set
    (model_select_published : QuerySet → QuerySet)
    (env : Env) (pm : PublicationManager) (table : list Page) : QuerySet :=
  let queryset :=
    PublishedModelManager_get_query_set model_select_published pm table in
  filter (λ p, site p = current_site env) queryset.

(** Modelled from the spec: [PageManager], the class of [Page.objects],
    is not among the sources; children queries are "filtered by the
    currently active publication context", so its query set is the one
    of [PageBaseManager] for the [Page] model. *)
Definition Page_objects (env : Env) (pm : PublicationManager)
    (table : list Page) : QuerySet :=
  PageBaseManager_get_query_set (Page_select_published (now env)) env pm table.

(** The body of [Page.get_children]:
    [Page.objects.filter(parent=self)], what the first access to
    [children] on an instance computes.  A page that was never saved
    has no key to match.  The memoisation of [cached_getter] is in
    [Page_children_access] below. *)
Definition Page_get_children (env : Env) (pm : PublicationManager)
    (table : list Page) (self : Page) : QuerySet :=
  match id self with
  | Some k => filter (λ p, parent p = Some k) (Page_objects env pm table)
  | None => []
  end.

(** An instance of [Page] in memory: the columns it was loaded with,
    and what [cached_getter] has kept for [get_children]. *)
Record PageInstance : Type := {
  columns : Page;
  children_memo : option QuerySet;
}.

(** An instance as it comes from the database. *)
Definition loaded (row : Page) : PageInstance :=
  {| columns := row; children_memo := None |}.

(** Modelled from the spec: [cached_getter], of the optimizations
    module, is not among the sources.  It makes "cached computed
    properties recomputed lazily and memoized per instance": the first
    access computes the value and keeps it in the instance, every
    later access to the same instance returns what was kept. *)
Definition cached_getter {A} (compute : A) (memo : option A)
    : A * option A :=
  match memo with
  | Some kept => (kept, Some kept)
  | None => (compute, Some compute)
  end.

(** [Page.children], the property over the memoised [get_children]:
    the query set, and the instance afterwards. *)
Definition Page_children_access (env : Env) (pm : PublicationManager)
    (table : list Page) (self : PageInstance) : QuerySet * PageInstance :=
  let '(queryset, memo) :=
    cached_getter (Page_get_children env pm table (columns self))
      (children_memo self) in
  (queryset, {| columns := columns self; children_memo := memo |}).

(** A query made from code running under the publication manager. *)
Definition reads {A} (f : PublicationManager → A) : M A :=
  λ pm, (Ok (f pm), pm, []).

(** [Model.__eq__]: same primary key. *)
Definition Page_eq (a b : Page) : bool := bool_decide (id a = id b).

(** ** The hierarchy cache *)

(** Modelled from the spec: the [cache] object of the managers module is
    not among the sources.  It is a "mapping from page identity to page
    object": [add(page)] "inserts/overwrites the entry for that page's
    identity", [remove(page)] "deletes the entry if present (no-op
    otherwise)", [get(identity)] "returns the cached page or absent". *)
Module cache.

Definition add (c : gmap (option nat) Page) (page : Page)
  : gmap (option nat) Page := <[id page := page]> c.

Definition remove (c : gmap (option nat) Page) (page : Page)
  : gmap (option nat) Page := delete (id page) c.

Definition get (c : gmap (option nat) Page) (identity : option nat)
  : option Page := c !! identity.

End cache.

(** The table of pages together with the process-wide cache. *)
Record Store : Type := {
  table : list Page;
  cached : gmap (option nat) Page;
}.

(** [Page.__init__]: [if self.id: cache.add(self)]; neither [None] nor
    [0] is a true key. *)
Definition Page_init (st : Store) (self : Page) : Store :=
  match id self with
  | Some (S _) => {| table := table st; cached := cache.add (cached st) self |}
  | _ => st
  end.

(** The key the database gives to a new row. *)
Definition fresh_id (table : list Page) : nat :=
  S (max_list (omap id table)).

(** The columns of [row] under another key. *)
Definition with_id (key : option nat) (row : Page) : Page :=
  {| id := key; site := site row; Page_url_title := Page_url_title row;
     parent := parent row; order := order row;
     is_online := is_online row;
     publication_date := publication_date row;
     expiry_date := expiry_date row |}.

(** [row] stands in the way of [self]: it is another row with the same
    [order] ([unique=True]), or with the same parent and URL title
    ([unique_together]).  A NULL is equal to nothing, so rows without
    an order, or without a parent, never clash. *)
Definition clashes (self row : Page) : bool :=
  bool_decide (id row ≠ id self)
  && ((bool_decide (is_Some (order self))
       && bool_decide (order row = order self))
      || (bool_decide (is_Some (parent self))
          && bool_decide (parent row = parent self)
          && bool_decide (Page_url_title row = Page_url_title self))).

(** [Model.save] of the framework: a page without a key is inserted
    under a new key, which the instance takes; a page with a key
    replaces the row of that key, or is inserted when there is none.
    The database refuses a row that breaks a unique constraint with
    [IntegrityError]. *)
Definition Model_save (table : list Page) (self : Page)
    : result (Page * list Page) :=
  let self' :=
    match id self with
    | None => with_id (Some (fresh_id table)) self
    | Some _ => self
    end in
  if existsb (clashes self') table then Raise IntegrityError
  else
    match id self with
    | None => Ok (self', table ++ [self'])
    | Some k =>
        if bool_decide (Some k ∈ id <$> table)
        then Ok (self,
                 (λ row, if bool_decide (id row = Some k) then self else row)
                   <$> table)
        else Ok (self, table ++ [self])
    end.

(** The parent column of [row] holds one of [keys]. *)
Definition parent_among (keys : gset nat) (row : Page) : Prop :=
  match parent row with
  | Some k => k ∈ keys
  | None => False
  end.

#[global] Instance parent_among_dec keys row : Decision (parent_among keys row).
Proof. unfold parent_among. destruct (parent row); apply _. Defined.

(** One round of collecting the rows that go with a delete: the keys
    so far, and the keys of the rows that refer to one of them. *)
Definition collect_step (table : list Page) (keys : gset nat) : gset nat :=
  keys ∪ list_to_set (omap id (filter (parent_among keys) table)).

(** The keys of the row [k] and of all rows below it. *)
Definition collect (table : list Page) (k : nat) : gset nat :=
  Nat.iter (length table) (collect_step table) {[k]}.

(** [row] stays when the rows of [keys] are deleted. *)
Definition survives (keys : gset nat) (row : Page) : Prop :=
  match id row with
  | Some j => j ∉ keys
  | None => True
  end.

#[global] Instance survives_dec keys row : Decision (survives keys row).
Proof. unfold survives. destruct (id row); apply _. Defined.

(** [Model.delete] of the framework: asserts that the instance has a
    key, deletes its row together with the rows below it, and sets the
    key of the instance to [None].  The instances that the framework
    loads for the rows below are not followed. *)
Definition Model_delete (table : list Page) (self : Page)
    : result (Page * list Page) :=
  match id self with
  | None => Raise AssertionError
  | Some k =>
      Ok (with_id None self, filter (survives (collect table k)) table)
  end.

(** [Page.save]: [super().save()], then [cache.add(self)]; the
    instance as saved, and the store afterwards. *)
Definition Page_save (st : Store) (self : Page) : result (Page * Store) :=
  match Model_save (table st) self with
  | Ok (self', table') =>
      Ok (self', {| table := table'; cached := cache.add (cached st) self' |})
  | Raise e => Raise e
  end.

(** [Page.delete]: [super().delete()], then [cache.remove(self)], for
    the instance as [super().delete()] has left it. *)
Definition Page_delete (st : Store) (self : Page) : result (Page * Store) :=
  match Model_delete (table st) self with
  | Ok (self', table') =>
      Ok (self',
          {| table := table'; cached := cache.remove (cached st) self' |})
  | Raise e => Raise e
  end.

(** Calls that reach the cache. *)
Inductive cache_call : Type :=
  | CallInit (page : Page)
  | CallSave (page : Page)
  | CallDelete (page : Page).

Definition run_call (st : Store) (c : cache_call) : Store :=
  match c with
  | CallInit p => Page_init st p
  | CallSave p =>
      match Page_save st p with
      | Ok (_, st') => st'
      | Raise _ => st
      end
  | CallDelete p =>
      match Page_delete st p with
      | Ok (_, st') => st'
      | Raise _ => st
      end
  end.

Definition run_calls (st : Store) (cs : list cache_call) : Store :=
  foldl run_call st cs.

(** Modelled from the spec: [PageField], the descriptor behind
    [Page.parent], is not among the sources.  The parent reference is
    resolved through the cache, and "callers fall back to the store". *)
Definition Page_parent (st : Store) (self : Page) : option Page :=
  match parent self with
  | None => None
  | Some k =>
      match cache.get (cached st) (Some k) with
      | Some p => Some p
      | None => list_find (λ row, id row = Some k) (table st) ≫= λ r, Some r.2
      end
  end.

(** ** The hierarchy of pages *)

(** [Page.all_parents], [Page.all_children] and the sibling navigation,
    over the parent reference and the children query of [Page]. *)
Section PageHierarchy.

Variable env : Env.
Variable pm : PublicationManager.
Variable st : Store.

Definition Page_children (self : Page) : QuerySet :=
  Page_get_children env pm (table st) self.

Definition Page_get_all_parents (fuel : nat) (self : Page)
    : option (list Page) :=
  all_parents (Page_parent st) fuel self.

Definition Page_get_all_children (fuel : nat) (self : Page)
    : option (list Page) :=
  all_children Page_children fuel self.

Definition Page_siblings (self : Page) : list Page :=
  siblings (Page_parent st) Page_children self.

Definition Page_next (self : Page) : option Page :=
  next (Page_parent st) Page_children Page_eq self.

Definition Page_prev (self : Page) : option Page :=
  prev (Page_parent st) Page_children Page_eq self.

End PageHierarchy.

(** ** A draft page seen under two publication settings *)

(** With [first] pushed: save the page [d] and query the children of
    a newly loaded instance of [y]; then, with [second] pushed in its
    place, the same query on that instance, and on a newly loaded one.
    The result is the saved page and the three query sets. *)
Definition draft_scenario (first second : bool) (env : Env) (st : Store)
    (d y : Page) : M (Page * QuerySet * QuerySet * QuerySet) :=
  _begin first >>
  match Page_save st d with
  | Raise e => raise e
  | Ok (d', st') =>
      bind (reads (λ pm, Page_children_access env pm (table st') (loaded y)))
        (λ '(q1, y1),
      _end >>
      (_begin second >>
      bind (reads (λ pm,
              ((Page_children_access env pm (table st') y1).1,
               (Page_children_access env pm (table st') (loaded y)).1)))
        (λ '(q2, q3),
      _end >>
      ret (d', q1, q2, q3))))
  end.

(** ** A small site *)

Definition blank_page : Page :=
  {| id := None; site := 1; Page_url_title := ""; parent := None;
     order := None;
     is_online := true; publication_date := None; expiry_date := None |}.

Definition new_page (parent_key : option nat) (position : nat)
    (online : bool) : Page :=
  {| id := None; site := 1; Page_url_title := "page-" +:+ pretty position;
     parent := parent_key; order := Some position;
     is_online := online; publication_date := None; expiry_date := None |}.

Definition stored (key : nat) (p : Page) : Page :=
  {| id := Some key; site := site p; Page_url_title := Page_url_title p;
     parent := parent p; order := order p;
     is_online := is_online p; publication_date := publication_date p;
     expiry_date := expiry_date p |}.

Definition empty_store : Store := {| table := []; cached := ∅ |}.

(** home (1) with the sections about (2) and news (3), the page team
    (4) under about, and a second root (5). *)
Definition demo_store : Store :=
  run_calls empty_store
    [CallSave (new_page None 10 true);
     CallSave (new_page (Some 1) 20 true);
     CallSave (new_page (Some 1) 30 true);
     CallSave (new_page (Some 2) 40 true);
     CallSave (new_page None 50 true)].

Definition demo_env : Env := {| now := 1000; current_site := 1 |}.

Definition home : Page := stored 1 (new_page None 10 true).
Definition about : Page := stored 2 (new_page (Some 1) 20 true).
Definition news : Page := stored 3 (new_page (Some 1) 30 true).
Definition team : Page := stored 4 (new_page (Some 2) 40 true).
Definition other_root : Page := stored 5 (new_page None 50 true).

(** A store in which the cache makes the page 1 its own grandparent. *)
Definition looped_store : Store :=
  {| table := [];
     cached := <[Some 1 := stored 1 (new_page (Some 2) 10 true)]>
                 (<[Some 2 := stored 2 (new_page (Some 1) 20 true)]> ∅) |}.

(** The depth of the pages of the small site, by key. *)
Definition demo_depth (p : Page) : nat :=
  match id p with
  | Some 2 | Some 3 => 1
  | Some 4 => 2
  | _ => 0
  end.

(** The small site with a draft page (6) under home. *)
Definition draft : Page := stored 6 (new_page (Some 1) 60 false).

Definition draft_store : Store :=
  run_calls demo_store [CallSave (new_page (Some 1) 60 false)].

(** A root (1) with an offline page (2) under it and an online page
    (3) under that one. *)
Definition hidden_branch_store : Store :=
  run_calls empty_store
    [CallSave (new_page None 10 true);
     CallSave (new_page (Some 1) 20 false);
     CallSave (new_page (Some 2) 30 true)].

(** A row with a publication window. *)
Definition timed_page (key : nat) (online : bool)
    (starts expires : option Z) : Page :=
  {| id := Some key; site := 1; Page_url_title := "page-" +:+ pretty key;
     parent := None; order := Some key;
     is_online := online; publication_date := starts;
     expiry_date := expires |}.

(** ** Upload paths of static media ([cms/apps/media/models.py]) *)

(** Text is a string of characters with codes below 256.  [lower()]
    matters for the letters A to Z only: whatever it makes of a
    character above 127, the last step of [clean_path_component]
    deletes that character. *)
Definition char_lower (c : ascii) : ascii :=
  let n := nat_of_ascii c in
  if (65 <=? n) && (n <=? 90) then ascii_of_nat (n + 32) else c.

Fixpoint str_lower (s : string) : string :=
  match s with
  | EmptyString => EmptyString
  | String c s' => String (char_lower c) (str_lower s')
  end.

(** The class [[\s_]]: space, tab, line feed, vertical tab, form feed,
    carriage return, and the underscore. *)
Definition whitespace_or_underscore (c : ascii) : bool :=
  let n := nat_of_ascii c in
  ((9 <=? n) && (n <=? 13)) || (n =? 32) || (n =? 95).

(** The class [[a-z0-9\-\.]], the characters [RE_NONALPHA] lets stand. *)
Definition path_char (c : ascii) : bool :=
  let n := nat_of_ascii c in
  ((97 <=? n) && (n <=? 122)) || ((48 <=? n) && (n <=? 57))
  || (n =? 45) || (n =? 46).

(** [RE_WHITESPACE.sub(u"-", path)]: every maximal run of the class
    becomes one dash; [in_run] tells that the character before was in
    the class. *)
Fixpoint RE_WHITESPACE_sub_from (in_run : bool) (path : string) : string :=
  match path with
  | EmptyString => EmptyString
  | String c path' =>
      if whitespace_or_underscore c then
        if in_run then RE_WHITESPACE_sub_from true path'
        else String "-" (RE_WHITESPACE_sub_from true path')
      else String c (RE_WHITESPACE_sub_from false path')
  end.

Definition RE_WHITESPACE_sub (path : string) : string :=
  RE_WHITESPACE_sub_from false path.

(** [RE_NONALPHA.sub(u"", path)] *)
Fixpoint RE_NONALPHA_sub (path : string) : string :=
  match path with
  | EmptyString => EmptyString
  | String c path' =>
      if path_char c then String c (RE_NONALPHA_sub path')
      else RE_NONALPHA_sub path'
  end.

(** [clean_path_component] *)
Definition clean_path_component (path : string) : string :=
  let path := str_lower path in
  let path := RE_WHITESPACE_sub path in
  let path := RE_NONALPHA_sub path in
  path.

(** ["uploads/%s/%i/%s" % (folder_name, file_version, filename)] *)
Definition upload_path_format (folder_name : string) (file_version : nat)
    (filename : string) : string :=
  "uploads/" +:+ folder_name +:+ "/" +:+ pretty file_version
  +:+ "/" +:+ filename.

(** The loop of [get_upload_path] over the names that exist in the
    storage; [None] when [fuel] rounds did not reach a free name. *)
Fixpoint get_upload_path_loop (fuel : nat) (storage : gset string)
    (folder_name filename : string) (file_version : nat) : option string :=
  match fuel with
  | 0 => None
  | S fuel' =>
      let upload_path := upload_path_format folder_name file_version filename in
      if bool_decide (upload_path ∈ storage)
      then get_upload_path_loop fuel' storage folder_name filename
             (file_version + 1)
      else Some upload_path
  end.

(** [get_upload_path], for an instance whose model has the plural name
    [verbose_name_plural]. *)
Definition get_upload_path (fuel : nat) (storage : gset string)
    (verbose_name_plural filename : string) : option string :=
  let filename := clean_path_component filename in
  let folder_name := clean_path_component verbose_name_plural in
  get_upload_path_loop fuel storage folder_name filename 1.

(** Every character of [s] is in the class [P]. *)
Fixpoint string_forall (P : ascii → bool) (s : string) : bool :=
  match s with
  | EmptyString => true
  | String c s' => P c && string_forall P s'
  end.

(** ** Order of query sets, keys of the table, coherence of the cache *)

(** [a] may come before [b] under [Meta.ordering]. *)
Definition by_order (a b : Page) : Prop :=
  order_leb (order a) (order b) = true.

(** Of two rows that both have an ordering key, [a] has the smaller
    one, or the same. *)
Definition keys_ascend (a b : Page) : Prop :=
  ∀ x y, order a = Some x → order b = Some y → x ≤ y.

(** The primary key is unique in the table. *)
Definition unique_keys (table : list Page) : Prop := NoDup (id <$> table).

(** Every entry of the cache sits under its own identity and is a row
    of the table. *)
Definition coherent (st : Store) : Prop :=
  ∀ key q, cache.get (cached st) key = Some q → id q = key ∧ q ∈ table st.

(** Calls of [save] only. *)
Definition only_saves (c : cache_call) : Prop :=
  match c with
  | CallSave _ => True
  | CallInit _ | CallDelete _ => False
  end.

(** Every parent column refers to a row of the table. *)
Definition referential (table : list Page) : Prop :=
  ∀ row k, row ∈ table → parent row = Some k → Some k ∈ id <$> table.

(** The children of a row in the table of the current site, whatever
    the publication state. *)
Definition table_children (env : Env) (st : Store) (p : Page) : list Page :=
  match id p with
  | Some k =>
      filter (λ c, parent c = Some k ∧ site c = current_site env) (table st)
  | None => []
  end.

(** ** Trails of parent references *)

Section Trails.

Context {E : Type}.
Variable parent : E → option E.

(** Every entry of [bs] has the entry before it as its parent, the
    first one has [above]. *)
Fixpoint trail_from (above : E) (bs : list E) : Prop :=
  match bs with
  | [] => True
  | b :: bs' => parent b = Some above ∧ trail_from b bs'
  end.

(** A trail that starts at a root. *)
Definition root_trail (bs : list E) : Prop :=
  match bs with
  | [] => False
  | r :: bs' => parent r = None ∧ trail_from r bs'
  end.

(** The ancestor [n] parent references above [self]. *)
Fixpoint nth_parent (n : nat) (self : E) : option E :=
  match n with
  | 0 => Some self
  | S n' =>
      match parent self with
      | Some p => nth_parent n' p
      | None => None
      end
  end.

End Trails.

(** ** The admin actions and views ([cms/apps/pages/admin.py]) *)

(** [queryset.update(...)]: one UPDATE statement over the rows that
    the query set selects from the table; no instance is loaded and no
    [save] is called. *)
Definition QuerySet_update (change : Page → Page) (queryset : QuerySet)
    (table : list Page) : list Page :=
  (λ row, if bool_decide (row ∈ queryset) then change row else row) <$> table.

Definition set_is_online (value : bool) (row : Page) : Page :=
  {| id := id row; site := site row; Page_url_title := Page_url_title row;
     parent := parent row;
     order := order row; is_online := value;
     publication_date := publication_date row;
     expiry_date := expiry_date row |}.

(** [PageBaseAdmin.publish_selected] *)
Definition PageBaseAdmin_publish_selected (st : Store) (queryset : QuerySet)
    : Store :=
  {| table := QuerySet_update (set_is_online true) queryset (table st);
     cached := cached st |}.

(** [PageBaseAdmin.unpublish_selected] *)
Definition PageBaseAdmin_unpublish_selected (st : Store) (queryset : QuerySet)
    : Store :=
  {| table := QuerySet_update (set_is_online false) queryset (table st);
     cached := cached st |}.

(** [queryset.exclude(id__in=ids)]: the rows for which
    [NOT (id IN (...))] is true; with a NULL among [ids] that is true
    for no row. *)
Definition QuerySet_exclude_id_in (ids : list (option nat))
    (queryset : QuerySet) : QuerySet :=
  filter (λ row, is_Some (id row) ∧ (None ∉ ids) ∧ (id row ∉ ids)) queryset.

(** The [valid_parents] of [PageAdmin.get_form]: the pages offered as
    parent of [obj]. *)
Definition PageAdmin_valid_parents (env : Env) (pm : PublicationManager)
    (st : Store) (fuel : nat) (obj : option Page) : option QuerySet :=
  let valid_parents := Page_objects env pm (table st) in
  match obj with
  | Some o =>
      match Page_get_all_children env pm st fuel o with
      | Some all_children =>
          let invalid_parents := (id <$> all_children) ++ [id o] in
          Some (QuerySet_exclude_id_in invalid_parents valid_parents)
      | None => None
      end
  | None => Some valid_parents
  end.

Definition PAGE_TYPE_PARAMETER : string := "type".

(** A content type of the registry. *)
Record ContentType : Type := {
  verbose_name : string;
  icon : string;
}.

(** A request: the items of [request.GET], one pair for every
    parameter, and [request.path]. *)
Record HttpRequest : Type := {
  GET : list (string * string);
  path : string;
}.

Inductive AdminError : Type :=
  | NameError (name : string)
  | Http404 (message : string).

(** What a view hands back: a redirect, the selection page rendered
    with its title and content types, or another page. *)
Inductive HttpResponse : Type :=
  | HttpResponseRedirect (url : string)
  | RenderToResponse (template title : string)
      (content_types : list (gmap string string))
  | OtherResponse (content : string).

(** [content_items.sort(lambda a, b: cmp(a[1].verbose_name,
    b[1].verbose_name))]: a stable sort by name. *)
Fixpoint insert_content_item (item : string * ContentType)
    (sorted : list (string * ContentType)) : list (string * ContentType) :=
  match sorted with
  | [] => [item]
  | x :: sorted' =>
      if String.ltb (verbose_name item.2) (verbose_name x.2)
      then item :: x :: sorted'
      else x :: insert_content_item item sorted'
  end.

Definition sort_content_items (items : list (string * ContentType))
    : list (string * ContentType) :=
  foldl (λ acc item, insert_content_item item acc) [] items.

Section PageAdmin.

(** [urllib.urlencode] *)
Variable urlencode : list (string * string) → string.

(** [ModelAdmin.add_view], the view of the super class. *)
Variable super_add_view : HttpRequest → AdminError + HttpResponse.

(** The entry of one content type in [content_types]. *)
Definition content_type_context (request : HttpRequest)
    (item : string * ContentType) : gmap string string :=
  let '(slug, content_type) := item in
  let get_params := GET request ++ [(PAGE_TYPE_PARAMETER, slug)] in
  let query_string := urlencode get_params in
  let url := path request +:+ "?" +:+ query_string in
  <["name" := verbose_name content_type]>
    (<["icon" := icon content_type]> (<["url" := url]> ∅)).

(** [PageAdmin.add_view], for the items of [content.registry].  The
    name [HttpResonseRedirect] is bound nowhere in the module. *)
Definition PageAdmin_add_view (registry_items : list (string * ContentType))
    (request : HttpRequest) : AdminError + HttpResponse :=
  if bool_decide (PAGE_TYPE_PARAMETER ∈ (GET request).*1)
  then super_add_view request
  else
    let content_items := sort_content_items registry_items in
    let content_types := content_type_context request <$> content_items in
    if bool_decide (length content_types = 1)
    then inl (NameError "HttpResonseRedirect")
    else inr (RenderToResponse "admin/pages/page/select_page_type.html"
                "Select page type" content_types).

End PageAdmin.

(** ** Titles and the template context ([PageBase]) *)

Record PageBase : Type := {
  url_title : string;
  title : string;
  short_title : string;
  browser_title : string;
  meta_keywords : string;
  meta_description : string;
  robots_index : bool;
  robots_follow : bool;
  robots_archive : bool;
}.

Inductive context_value : Type :=
  | Text (s : string)
  | Flag (b : bool).

(** [a or b] on strings: [a] unless it is empty. *)
Definition str_or (a b : string) : string :=
  match a with
  | EmptyString => b
  | String _ _ => a
  end.

(** [d.update(other)] *)
Definition dict_update {V} (d other : gmap string V) : gmap string V :=
  other ∪ d.

(** [PageBase.__unicode__] *)
Definition PageBase_unicode (self : PageBase) : string :=
  str_or (short_title self) (title self).

(** [EntityBase.get_context_data]; [unicode(self)] is the
    [__unicode__] of the class of [self]. *)
Definition EntityBase_get_context_data (unicode_self : string)
    (self : PageBase) : gmap string context_value :=
  let title := unicode_self in
  <["meta_description" := Text (meta_description self)]>
  (<["meta_keywords" := Text (meta_keywords self)]>
  (<["robots_index" := Flag (robots_index self)]>
  (<["robots_archive" := Flag (robots_archive self)]>
  (<["robots_follow" := Flag (robots_follow self)]>
  (<["title" := Text title]>
  (<["header" := Text title]> ∅)))))).

(** [PageBase.get_context_data] *)
Definition PageBase_get_context_data (self : PageBase)
    : gmap string context_value :=
  let context_data :=
    EntityBase_get_context_data (PageBase_unicode self) self in
  dict_update context_data
    (<["title" := Text (str_or (browser_title self) (title self))]>
     (<["header" := Text (title self)]> ∅)).

(** The context that [EntityBase.render] hands to the template:
    [page_context.update(context or {})]. *)
Definition EntityBase_render_context (self : PageBase)
    (context : option (gmap string context_value))
    : gmap string context_value :=
  let page_context := PageBase_get_context_data self in
  dict_update page_context (default ∅ context).

(** * Properties *)

(** ** The publication manager *)

Lemma getitem_last_snoc {A} (l : list A) (x : A) :
  PyList.getitem_last (l ++ [x]) = Ok x.
Proof. unfold PyList.getitem_last. by rewrite last_snoc. Qed.

Lemma pop_snoc {A} (l : list A) (x : A) :
  PyList.pop (l ++ [x]) = Ok (x, l).
Proof. unfold PyList.pop. by rewrite last_snoc, removelast_last. Qed.

Lemma pop_nil {A} : PyList.pop (@nil A) = Raise IndexError.
Proof. reflexivity. Qed.

Lemma begin_run v pm :
  _begin v pm = (Ok tt, {| _stack := _stack pm ++ [v] |}, [Push v]).
Proof. reflexivity. Qed.

Lemma end_snoc s v :
  _end {| _stack := s ++ [v] |} = (Ok tt, {| _stack := s |}, [Pop v]).
Proof. unfold _end. simpl. by rewrite pop_snoc. Qed.

Lemma end_nil :
  _end {| _stack := [] |}
  = (Raise PublicationManagementError, {| _stack := [] |}, []).
Proof. reflexivity. Qed.

Lemma active_snoc s v : active {| _stack := s ++ [v] |} = v.
Proof.
  unfold active, select_published_active. simpl.
  by rewrite getitem_last_snoc.
Qed.

Lemma select_published_active_total pm :
  select_published_active pm = (Ok (active pm), pm, []).
Proof.
  unfold active, select_published_active, PyList.getitem_last.
  by destruct (last (_stack pm)).
Qed.

Lemma well_nested_balanced t : well_nested t → pushes t = pops t.
Proof.
  unfold pushes, pops.
  induction 1 as [|v t _ IH|t1 t2 _ IH1 _ IH2]; [done| |].
  - rewrite !filter_cons, !filter_app. simpl.
    rewrite !length_app. simpl. rewrite IH. lia.
  - rewrite !filter_app, !length_app. by rewrite IH1, IH2.
Qed.

Lemma select_published_run {A} (v : bool) (body : M A) pm r t :
  body {| _stack := _stack pm ++ [v] |}
    = (r, {| _stack := _stack pm ++ [v] |}, t) →
  ∃ t', select_published v body pm = (r, pm, Push v :: t' ++ [Pop v])
        ∧ (t' = t ∨ t' = t ++ []).
Proof.
  intros Hbody. destruct pm as [s]. simpl in *.
  unfold select_published, seq, bind, try_finally, try_except.
  rewrite begin_run. simpl. rewrite Hbody.
  destruct r as [a|e]; simpl; rewrite end_snoc; simpl; eauto.
Qed.

Lemma Paired_run {A} (m : M A) :
  Paired m → ∀ pm, ∃ r t, m pm = (r, pm, t) ∧ well_nested t.
Proof.
  induction 1 as [A a|A e| |A B m k _ IHm _ IHk|A m h _ IHm _ IHh
                 |A m f _ IHm _ IHf|A v body _ IH]; intros pm.
  - exists (Ok a), []. split; [done|constructor].
  - exists (Raise e), []. split; [done|constructor].
  - exists (Ok (active pm)), []. split; [|constructor].
    apply select_published_active_total.
  - destruct (IHm pm) as (r1 & t1 & E1 & W1). unfold bind. rewrite E1.
    destruct r1 as [a|e]; [|by eauto].
    destruct (IHk a pm) as (r2 & t2 & E2 & W2). rewrite E2.
    exists r2, (t1 ++ t2). split; [done|by constructor].
  - destruct (IHm pm) as (r1 & t1 & E1 & W1). unfold try_except. rewrite E1.
    destruct r1 as [a|e]; [by eauto|].
    destruct (IHh e pm) as (r2 & t2 & E2 & W2). rewrite E2.
    exists r2, (t1 ++ t2). split; [done|by constructor].
  - destruct (IHm pm) as (r1 & t1 & E1 & W1).
    destruct (IHf pm) as (r2 & t2 & E2 & W2).
    unfold try_finally. rewrite E1, E2.
    destruct r2 as [[]|e]; eexists _, (t1 ++ t2);
      (split; [done|by constructor]).
  - destruct (IH {| _stack := _stack pm ++ [v] |}) as (r & t & E & W).
    destruct (select_published_run v body pm r t E) as (t' & E' & Ht').
    exists r, (Push v :: t' ++ [Pop v]). split; [done|].
    constructor. destruct Ht' as [->| ->]; [done|].
    by rewrite app_nil_r.
Qed.

Lemma calls_app t1 t2 pm pm1 u1 :
  calls t1 pm = (Ok tt, pm1, u1) →
  calls (t1 ++ t2) pm
  = (let '(r, pm2, u2) := calls t2 pm1 in (r, pm2, u1 ++ u2)).
Proof.
  revert pm u1. induction t1 as [|[v|v] t1 IH]; intros pm u1; simpl.
  - unfold ret. intros [= <- <-]. by destruct (calls t2 pm) as [[??]?].
  - unfold seq, bind. rewrite begin_run.
    destruct (calls t1 _) as [[r pm'] u] eqn:E. intros [= -> -> <-].
    rewrite (IH _ _ E). by destruct (calls t2 pm1) as [[??]?].
  - unfold seq, bind. destruct (_end pm) as [[[[]|e] pm'] u0]; [|done].
    destruct (calls t1 _) as [[r pm''] u] eqn:E. intros [= -> -> <-].
    rewrite (IH _ _ E). destruct (calls t2 pm1) as [[??]?].
    by rewrite app_assoc.
Qed.

Lemma calls_well_nested t :
  well_nested t → ∀ pm, calls t pm = (Ok tt, pm, t).
Proof.
  induction 1 as [|v t _ IH|t1 t2 _ IH1 _ IH2]; intros pm.
  - done.
  - simpl. unfold seq, bind. rewrite begin_run.
    rewrite (calls_app t [Pop v] _ _ _ (IH _)). simpl.
    unfold seq, bind. destruct pm as [s]. simpl. rewrite end_snoc.
    unfold ret. by rewrite app_nil_r.
  - rewrite (calls_app t1 t2 _ _ _ (IH1 pm)). by rewrite IH2.
Qed.

(** C1: code that uses the publication manager only through correctly
    paired [select_published] scopes, whatever way the scopes end
    (normally or by an exception), leaves the manager as it found it:
    the stack is the one from before, [select_published_active] yields
    the value it yielded before, every push was closed by its own pop,
    and there are as many pops as pushes.  The same holds for the raw
    calls: a well nested run of [_begin] and [_end] raises nothing,
    every [_end] pops the value of its own [_begin], and the manager is
    back where it was. *)
Theorem select_published_restores_stack :
  (∀ A (m : M A), Paired m →
     ∀ pm, ∃ r pm' t,
       m pm = (r, pm', t)
       ∧ _stack pm' = _stack pm
       ∧ select_published_active pm' = select_published_active pm
       ∧ active pm' = active pm
       ∧ well_nested t
       ∧ pushes t = pops t)
  ∧ (∀ t, well_nested t →
       ∀ pm, calls t pm = (Ok tt, pm, t) ∧ pushes t = pops t).
Proof.
  split.
  - intros A m Hm pm. destruct (Paired_run m Hm pm) as (r & t & E & W).
    exists r, pm, t. repeat split; [done..|by apply well_nested_balanced].
  - intros t Ht pm. split; [by apply calls_well_nested|].
    by apply well_nested_balanced.
Qed.

Lemma select_published_restores_stack_witness :
  let m : M unit :=
    select_published true
      (select_published false (@raise unit (OtherError 7)) >> ret tt) in
  let pm := {| _stack := [false] |} in
  Paired m ∧
  ∃ r pm' t,
    m pm = (r, pm', t)
    ∧ _stack pm' = _stack pm
    ∧ select_published_active pm' = select_published_active pm
    ∧ active pm' = active pm
    ∧ well_nested t
    ∧ pushes t = pops t.
Proof.
  assert (H : Paired (select_published true
      (select_published false (@raise unit (OtherError 7)) >> ret tt))).
  { apply Paired_with, Paired_bind.
    - apply Paired_with, Paired_raise.
    - intros _. apply Paired_ret. }
  split; [exact H|].
  apply (proj1 select_published_restores_stack _ _ H {| _stack := [false] |}).
Defined.

(** The run of the scopes above: the inner scope ends by an exception,
    both values are popped, the exception goes on to the caller. *)
Example nested_scopes_run :
  select_published true
    (select_published false (@raise unit (OtherError 7)) >> ret tt)
    {| _stack := [false] |}
  = (Raise (OtherError 7), {| _stack := [false] |},
     [Push true; Push false; Pop false; Pop true]).
Proof. reflexivity. Qed.

(** C2: [select_published_active] yields the value pushed last when the
    stack is not empty and [True] when it is empty; it never raises
    and leaves the stack as it is. *)
Theorem select_published_active_top :
  (∀ s v, select_published_active {| _stack := s ++ [v] |}
          = (Ok v, {| _stack := s ++ [v] |}, []))
  ∧ (∀ pm v r pm' t, _begin v pm = (r, pm', t) →
       select_published_active pm' = (Ok v, pm', []))
  ∧ select_published_active {| _stack := [] |}
    = (Ok true, {| _stack := [] |}, [])
  ∧ (∀ pm, ∃ b, select_published_active pm = (Ok b, pm, [])).
Proof.
  repeat split.
  - intros s v. rewrite select_published_active_total.
    by rewrite active_snoc.
  - intros pm v r pm' t. rewrite begin_run. intros [= <- <- <-].
    rewrite select_published_active_total. by rewrite active_snoc.
  - intros pm. eexists. apply select_published_active_total.
Qed.

Lemma begins_run vs s :
  begins vs {| _stack := s |} = (Ok tt, {| _stack := s ++ vs |}, Push <$> vs).
Proof.
  revert s. induction vs as [|v vs IH]; intros s; simpl.
  - unfold ret. by rewrite app_nil_r.
  - unfold seq, bind. rewrite begin_run. simpl. rewrite IH.
    by rewrite <- app_assoc.
Qed.

Lemma ends_run vs s :
  ends (length vs) {| _stack := s ++ vs |}
  = (Ok tt, {| _stack := s |}, Pop <$> reverse vs).
Proof.
  revert s. induction vs as [|v vs IH] using rev_ind; intros s; simpl.
  - unfold ret. by rewrite app_nil_r.
  - rewrite length_app, Nat.add_comm. simpl.
    unfold seq, bind. rewrite app_assoc, end_snoc, IH.
    by rewrite reverse_snoc.
Qed.

Lemma ends_underflow n :
  ∃ t, ends (S n) {| _stack := [] |}
       = (Raise PublicationManagementError, {| _stack := [] |}, t).
Proof. simpl. unfold seq, bind. rewrite end_nil. eauto. Qed.

(** C3: [_end] on an empty stack raises [PublicationManagementError]
    and changes nothing; on a stack that is not empty it removes the
    value pushed last and does not raise.  So after any run of enters,
    one exit more than there were enters raises the error. *)
Theorem end_imbalanced_raises :
  _end {| _stack := [] |}
  = (Raise PublicationManagementError, {| _stack := [] |}, [])
  ∧ (∀ s v, _end {| _stack := s ++ [v] |}
            = (Ok tt, {| _stack := s |}, [Pop v]))
  ∧ (∀ v s, ∃ w s', v :: s = s' ++ [w]
            ∧ _end {| _stack := v :: s |} = (Ok tt, {| _stack := s' |}, [Pop w]))
  ∧ (∀ vs k, ∃ pm t,
       (begins vs >> ends (S (length vs + k))) PublicationManager_init
       = (Raise PublicationManagementError, pm, t)).
Proof.
  split; [exact end_nil|]. split; [exact end_snoc|]. split.
  - intros v s. destruct (exists_last (l := v :: s)) as (s' & w & E); [done|].
    exists w, s'. split; [done|]. rewrite E. apply end_snoc.
  - intros vs k. unfold seq at 1, bind, PublicationManager_init.
    rewrite begins_run. simpl app.
    replace (S (length vs + k)) with (length vs + S k) by lia.
    assert (Hsplit : ∀ n m pm,
      ends (n + m) pm
      = (let '(r, pm1, t1) := ends n pm in
         match r with
         | Ok _ => let '(r2, pm2, t2) := ends m pm1 in (r2, pm2, t1 ++ t2)
         | Raise e => (Raise e, pm1, t1)
         end)).
    { induction n as [|n IHn]; intros m pm; simpl.
      - unfold ret. by destruct (ends m pm) as [[??]?].
      - unfold seq, bind. destruct (_end pm) as [[[[]|e] pm1] t1]; [|done].
        rewrite IHn. destruct (ends n pm1) as [[[[]|e] pm2] t2]; [|done].
        destruct (ends m pm2) as [[r3 pm3] t3]. by rewrite app_assoc. }
    rewrite Hsplit.
    pose proof (ends_run vs []) as Hr. simpl in Hr. rewrite Hr.
    destruct (ends_underflow k) as (t & ->). eauto.
Qed.

Example demo_table :
  table demo_store = [home; about; news; team; other_root].
Proof. vm_compute. reflexivity. Qed.

Example demo_children :
  Page_children demo_env PublicationManager_init demo_store home = [about; news].
Proof. vm_compute. reflexivity. Qed.

Example demo_parent : Page_parent demo_store team = Some about.
Proof. vm_compute. reflexivity. Qed.

(** ** Entities in a hierarchy *)

Section EntityBaseFacts.

Context {E : Type}.
Variable parent : E → option E.
Variable children : E → list E.
Variable equal : E → E → bool.

Lemma all_parents_chain fuel self ps :
  all_parents parent fuel self = Some ps → parent_chain parent self ps.
Proof.
  revert self ps. induction fuel as [|fuel IH]; intros self ps; [done|].
  simpl. destruct (parent self) as [p|] eqn:Hp.
  - destruct (all_parents parent fuel p) as [qs|] eqn:Hq; [|done].
    intros [= <-]. simpl. rewrite Hp. split; [done|]. by apply IH.
  - intros [= <-]. done.
Qed.

Lemma chain_all_parents self ps :
  parent_chain parent self ps →
  ∀ fuel, length ps < fuel → all_parents parent fuel self = Some ps.
Proof.
  revert self. induction ps as [|p ps IH]; intros self Hc fuel Hlen.
  - destruct fuel as [|fuel]; [lia|]. simpl in *. by rewrite Hc.
  - destruct fuel as [|fuel]; [simpl in Hlen; lia|].
    destruct Hc as [Hp Hc]. simpl. rewrite Hp.
    rewrite (IH p Hc fuel); [done|]. simpl in Hlen. lia.
Qed.

Lemma parent_chain_unique self ps qs :
  parent_chain parent self ps → parent_chain parent self qs → ps = qs.
Proof.
  revert self qs. induction ps as [|p ps IH]; intros self [|q qs]; simpl.
  - done.
  - intros -> [? _]. done.
  - intros [-> _] ?. done.
  - intros [Hp Hc] [Hq Hd]. rewrite Hp in Hq. injection Hq as <-.
    f_equal. by eapply IH.
Qed.

(** C4, as the code has it: [all_parents] lists the ancestors of a page
    without the page itself, the nearest parent first and the root
    last.  It is empty for a root, and [[mid; root]] for a page two
    levels deep; in general it is the chain of parent references,
    whenever the recursion has room for it. *)
Theorem all_parents_nearest_first self mid root fuel :
  parent self = Some mid →
  parent mid = Some root →
  parent root = None →
  all_parents parent (1 + fuel) root = Some []
  ∧ all_parents parent (3 + fuel) self = Some [mid; root]
  ∧ breadcrumbs parent (3 + fuel) self = Some [root; mid; self]
  ∧ (∀ p ps, parent_chain parent p ps →
       all_parents parent (S (length ps)) p = Some ps)
  ∧ (∀ n p ps, all_parents parent n p = Some ps → parent_chain parent p ps).
Proof.
  intros Hs Hm Hr.
  assert (H2 : all_parents parent (3 + fuel) self = Some [mid; root]).
  { apply chain_all_parents; simpl; [done|lia]. }
  repeat split.
  - simpl. by rewrite Hr.
  - done.
  - unfold breadcrumbs. by rewrite H2.
  - intros p ps Hc. apply chain_all_parents; [done|lia].
  - intros n p ps. apply all_parents_chain.
Qed.

Lemma all_children_foldl (sub sub' : E → option (list E)) cs acc :
  (∀ c, sub c = sub' c) →
  foldl (all_children_step sub) (Some acc) cs
  = (λ ls, acc ++ concat ls) <$> mapM (λ c, (c ::.) <$> sub' c) cs.
Proof.
  intros Hsub. revert acc. induction cs as [|c cs IH]; intros acc; simpl.
  - by rewrite app_nil_r.
  - rewrite <- Hsub. destruct (sub c) as [ds|]; simpl.
    + rewrite IH. destruct (mapM _ cs) as [ls|]; simpl; [|done].
      f_equal. by rewrite <- !app_assoc.
    + clear. induction cs as [|c' cs IH]; [done|]. simpl. apply IH.
Qed.

Lemma all_children_descendants_of fuel self :
  all_children children fuel self = descendants_of children fuel self.
Proof.
  revert self. induction fuel as [|fuel IH]; intros self; [done|].
  simpl. rewrite (all_children_foldl _ (descendants_of children fuel)); [|done].
  by destruct (mapM _ _).
Qed.

Lemma all_children_unfold fuel self ds :
  all_children children (S fuel) self = Some ds ↔
  ∃ subs, Forall2 (λ c s, all_children children fuel c = Some s)
            (children self) subs
          ∧ ds = concat (zip_with cons (children self) subs).
Proof.
  simpl. rewrite (all_children_foldl _ (all_children children fuel)); [|done].
  generalize (children self). intros cs. split.
  - destruct (mapM _ cs) as [ls|] eqn:Hls; [|done]. simpl. intros [= <-].
    apply mapM_Some in Hls.
    assert (∃ subs, Forall2 (λ c s, all_children children fuel c = Some s)
                      cs subs ∧ ls = zip_with cons cs subs) as (subs & ? & ->).
    { induction Hls as [|c l cs' ls Hc _ (subs & IH1 & IH2)].
      - exists []. by split.
      - destruct (all_children children fuel c) as [s|] eqn:Hs; [|done].
        injection Hc as <-. exists (s :: subs). split; [by constructor|].
        simpl. by rewrite IH2. }
    eauto.
  - intros (subs & Hall & ->).
    assert (mapM (λ c, (c ::.) <$> all_children children fuel c) cs
            = Some (zip_with cons cs subs)) as ->; [|done].
    apply mapM_Some. induction Hall as [|c s cs subs Hc _ IH]; simpl.
    + constructor.
    + constructor; [by rewrite Hc|done].
Qed.

Lemma all_children_sound fuel self ds x :
  all_children children fuel self = Some ds →
  x ∈ ds → descendant children self x.
Proof.
  revert self ds. induction fuel as [|fuel IH]; intros self ds; [done|].
  rewrite all_children_unfold. intros (subs & Hall & ->).
  assert (Hin : ∀ c, c ∈ children self → c ∈ children self) by done.
  revert Hall Hin. generalize (children self) at 1 2 4.
  intros cs0 Hall. induction Hall as [|c s cs subs Hc _ IHall]; intros Hcs; simpl.
  - by intros ?%elem_of_nil.
  - rewrite elem_of_cons, elem_of_app. intros [->|[Hx|Hx]].
    + apply descendant_child, Hcs. by left.
    + eapply descendant_deeper; [apply Hcs; by left|]. by eapply IH.
    + apply IHall; [|done]. intros c' ?. apply Hcs. by right.
Qed.

Lemma all_children_complete self x :
  descendant children self x →
  ∀ fuel ds, all_children children fuel self = Some ds → x ∈ ds.
Proof.
  induction 1 as [p c Hc|p c d Hc _ IH]; intros [|fuel] ds; try done;
    rewrite all_children_unfold; intros (subs & Hall & ->).
  - induction Hall as [|c' s cs subs _ _ IHall]; [by apply elem_of_nil in Hc|].
    simpl. apply elem_of_cons in Hc as [->|Hc]; [by left|].
    right. apply elem_of_app. right. by apply IHall.
  - induction Hall as [|c' s cs subs Hs _ IHall]; [by apply elem_of_nil in Hc|].
    simpl. apply elem_of_cons in Hc as [->|Hc].
    + right. apply elem_of_app. left. by eapply IH.
    + right. apply elem_of_app. right. by apply IHall.
Qed.

Lemma all_children_fuel_mono fuel self ds :
  all_children children fuel self = Some ds →
  ∀ k, all_children children (fuel + k) self = Some ds.
Proof.
  revert self ds. induction fuel as [|fuel IH]; intros self ds; [done|].
  intros H k. replace (S fuel + k) with (S (fuel + k)) by lia.
  apply all_children_unfold in H as (subs & Hall & ->).
  apply all_children_unfold. exists subs. split; [|done].
  eapply Forall2_impl; [exact Hall|]. intros c s Hc. by apply IH.
Qed.

(** A hierarchy that is a forest of bounded depth: children lie
    strictly deeper than their parent, and nothing lies deeper than
    [bound]. *)
Section Forest.

Variable depth : E → nat.
Variable bound : nat.
Hypothesis children_deeper : ∀ p c, c ∈ children p → depth p < depth c.
Hypothesis depth_bounded : ∀ p, depth p ≤ bound.

Lemma all_children_terminates fuel self :
  bound < depth self + fuel → is_Some (all_children children fuel self).
Proof using children_deeper depth_bounded.
  revert self. induction fuel as [|fuel IH]; intros self Hf.
  - pose proof (depth_bounded self). lia.
  - assert (Hsub : ∀ c, c ∈ children self →
                     is_Some (all_children children fuel c)).
    { intros c Hc. apply IH. pose proof (children_deeper _ _ Hc). lia. }
    assert (∃ subs, Forall2 (λ c s, all_children children fuel c = Some s)
                      (children self) subs) as (subs & Hall).
    { revert Hsub. generalize (children self). intros cs.
      induction cs as [|c cs IHcs]; intros Hsub; [by exists []|].
      destruct (Hsub c) as [s Hs]; [by left|].
      destruct IHcs as (subs & ?); [intros ??; apply Hsub; by right|].
      exists (s :: subs). by constructor. }
    eexists. apply all_children_unfold. eauto.
Qed.

Lemma descendant_deeper_than self x :
  descendant children self x → depth self < depth x.
Proof using children_deeper.
  induction 1 as [p c Hc|p c d Hc _ IH].
  - by apply children_deeper.
  - pose proof (children_deeper _ _ Hc). lia.
Qed.

Lemma all_children_excludes_self fuel self ds :
  all_children children fuel self = Some ds → self ∉ ds.
Proof using children_deeper.
  intros H Hin. apply (all_children_sound _ _ _ _ H) in Hin.
  apply descendant_deeper_than in Hin. lia.
Qed.

End Forest.

(** C5: [all_children] lists the descendants of a page depth first,
    every child right before its own whole subtree and the page itself
    left out.  For children [[a; b]] where [a] has the one child [a1]
    it is exactly [[a; a1; b]]; in general it follows the expansion
    order of the design, and holds the descendants of the page and
    nothing else. *)
Theorem all_children_depth_first self a a1 b fuel :
  children self = [a; b] →
  children a = [a1] →
  children a1 = [] →
  children b = [] →
  all_children children (3 + fuel) self = Some [a; a1; b]
  ∧ (self ∉ [a; a1; b])
  ∧ (∀ n p, all_children children n p = descendants_of children n p)
  ∧ (∀ n p ds, all_children children n p = Some ds →
       ∀ x, x ∈ ds ↔ descendant children p x).
Proof.
  intros Hs Ha Ha1 Hb. split; [|split; [|split]].
  - assert (La1 : ∀ n, all_children children (S n) a1 = Some []).
    { intros n. simpl. by rewrite Ha1. }
    assert (Lb : ∀ n, all_children children (S n) b = Some []).
    { intros n. simpl. by rewrite Hb. }
    assert (La : ∀ n, all_children children (S (S n)) a = Some [a1]).
    { intros n. apply all_children_unfold. exists [[]]. rewrite Ha.
      split; [|done]. repeat constructor. apply La1. }
    apply all_children_unfold. exists [[a1]; []]. rewrite Hs.
    split; [|done]. repeat constructor; [apply La|apply Lb].
  - rewrite !elem_of_cons, elem_of_nil. intros [->|[->|[->|[]]]]; congruence.
  - intros n p. apply all_children_descendants_of.
  - intros n p ds Hds x. split.
    + by eapply all_children_sound.
    + intros Hd. by eapply all_children_complete.
Qed.

Lemma scan_skip self skipped rest :
  (∀ y, y ∈ skipped → equal y self = false) →
  scan equal self (skipped ++ rest) = scan equal self rest.
Proof.
  induction skipped as [|y skipped IH]; intros Hne; [done|].
  simpl. rewrite Hne by (by left). apply IH. intros ??. apply Hne. by right.
Qed.

Lemma scan_found self x rest :
  equal x self = true → scan equal self (x :: rest) = head rest.
Proof. intros Hx. simpl. rewrite Hx. by destruct rest. Qed.

(** C6: for a page that occurs exactly once among the children of its
    parent, [next] is the sibling right after it and [prev] the sibling
    right before it in the order of the children; [next] of the last
    sibling and [prev] of the first sibling are [None]. *)
Theorem next_prev_adjacent self p before x after :
  parent self = Some p →
  children p = before ++ x :: after →
  equal x self = true →
  (∀ y, y ∈ before ++ after → equal y self = false) →
  next parent children equal self = head after
  ∧ prev parent children equal self = last before
  ∧ (after = [] → next parent children equal self = None)
  ∧ (before = [] → prev parent children equal self = None).
Proof.
  intros Hp Hc Hx Hothers.
  assert (Hnext : next parent children equal self = head after).
  { unfold next, siblings. rewrite Hp, Hc.
    rewrite scan_skip.
    - by apply scan_found.
    - intros y Hy. apply Hothers, elem_of_app. by left. }
  assert (Hprev : prev parent children equal self = last before).
  { unfold prev, siblings. rewrite Hp, Hc.
    rewrite reverse_app, reverse_cons, <- app_assoc. simpl.
    rewrite scan_skip.
    - rewrite scan_found by done. apply head_reverse.
    - intros y Hy. rewrite elem_of_reverse in Hy.
      apply Hothers, elem_of_app. by right. }
  repeat split; [done..| |].
  - intros ->. by rewrite Hnext.
  - intros ->. by rewrite Hprev.
Qed.

(** C10: a page without a parent has no siblings, whatever other pages
    there are, and both [next] and [prev] are [None] for it. *)
Theorem root_has_no_siblings self :
  parent self = None →
  siblings parent children self = []
  ∧ next parent children equal self = None
  ∧ prev parent children equal self = None.
Proof.
  intros Hp. unfold next, prev, siblings. by rewrite Hp.
Qed.

End EntityBaseFacts.

(** ** The hierarchy of pages, on the small site *)

Lemma all_parents_nearest_first_witness :
  let parent := Page_parent demo_store in
  (parent team = Some about ∧ parent about = Some home ∧ parent home = None)
  ∧ all_parents parent 1 home = Some []
  ∧ Page_get_all_parents demo_store 3 team = Some [about; home]
  ∧ breadcrumbs parent 3 team = Some [home; about; team].
Proof.
  assert (H1 : Page_parent demo_store team = Some about) by (vm_compute; done).
  assert (H2 : Page_parent demo_store about = Some home) by (vm_compute; done).
  assert (H3 : Page_parent demo_store home = None) by (vm_compute; done).
  split; [done|].
  pose proof (all_parents_nearest_first (Page_parent demo_store)
                team about home 0 H1 H2 H3) as (Ha & Hb & Hc & _).
  done.
Defined.

(** C4, as the specification has it, fails: on the small site the page
    [team] lies two levels deep, under [about] under the root [home],
    and no amount of fuel makes [all_parents] list the root first. *)
Lemma all_parents_root_first_counterexample :
  Page_parent demo_store team = Some about
  ∧ Page_parent demo_store about = Some home
  ∧ Page_parent demo_store home = None
  ∧ Page_get_all_parents demo_store 3 team = Some [about; home]
  ∧ ∀ fuel, Page_get_all_parents demo_store fuel team ≠ Some [home; about].
Proof.
  repeat split; try (vm_compute; reflexivity).
  intros fuel H. apply all_parents_chain in H. destruct H as [H _].
  vm_compute in H. discriminate H.
Qed.

Lemma all_children_depth_first_witness :
  let children := Page_children demo_env PublicationManager_init demo_store in
  (children home = [about; news] ∧ children about = [team]
   ∧ children team = [] ∧ children news = [])
  ∧ Page_get_all_children demo_env PublicationManager_init demo_store 3 home
    = Some [about; team; news]
  ∧ (home ∉ [about; team; news]).
Proof.
  set (ch := Page_children demo_env PublicationManager_init demo_store).
  assert (H1 : ch home = [about; news]) by (vm_compute; done).
  assert (H2 : ch about = [team]) by (vm_compute; done).
  assert (H3 : ch team = []) by (vm_compute; done).
  assert (H4 : ch news = []) by (vm_compute; done).
  split; [done|].
  pose proof (all_children_depth_first ch home about team news 0
                H1 H2 H3 H4) as (Ha & Hb & _).
  done.
Defined.

Lemma next_prev_adjacent_witness :
  Page_parent demo_store about = Some home
  ∧ Page_children demo_env PublicationManager_init demo_store home
    = [] ++ about :: [news]
  ∧ Page_next demo_env PublicationManager_init demo_store about = Some news
  ∧ Page_prev demo_env PublicationManager_init demo_store about = None.
Proof.
  set (ch := Page_children demo_env PublicationManager_init demo_store).
  assert (H1 : Page_parent demo_store about = Some home) by (vm_compute; done).
  assert (H2 : ch home = [] ++ about :: [news]) by (vm_compute; done).
  assert (H3 : Page_eq about about = true) by (vm_compute; done).
  assert (H4 : ∀ y, y ∈ [] ++ [news] → Page_eq y about = false).
  { intros y Hy. apply list_elem_of_singleton in Hy as ->.
    vm_compute. reflexivity. }
  split; [done|]. split; [done|].
  pose proof (next_prev_adjacent (Page_parent demo_store) ch Page_eq
                about home [] about [news] H1 H2 H3 H4) as (Ha & Hb & _).
  done.
Defined.

Lemma root_has_no_siblings_witness :
  Page_parent demo_store home = None
  ∧ other_root ∈ table demo_store
  ∧ Page_siblings demo_env PublicationManager_init demo_store home = []
  ∧ Page_next demo_env PublicationManager_init demo_store home = None
  ∧ Page_prev demo_env PublicationManager_init demo_store home = None.
Proof.
  assert (H1 : Page_parent demo_store home = None) by (vm_compute; done).
  split; [done|]. split.
  { rewrite demo_table. set_solver. }
  exact (root_has_no_siblings (Page_parent demo_store)
           (Page_children demo_env PublicationManager_init demo_store)
           Page_eq home H1).
Defined.

(** ** Publication filtering *)

Lemma insert_by_order_perm p qs : insert_by_order p qs ≡ₚ p :: qs.
Proof.
  induction qs as [|q qs IH]; [done|]. simpl.
  destruct (_ && _); [done|]. rewrite IH. apply Permutation_swap.
Qed.

Lemma order_by_order_perm table : order_by_order table ≡ₚ table.
Proof.
  unfold order_by_order.
  assert (H : ∀ acc, foldl (λ acc p, insert_by_order p acc) acc table
                     ≡ₚ table ++ acc).
  { induction table as [|p table IH]; intros acc; [done|]. simpl.
    rewrite IH, insert_by_order_perm. by rewrite Permutation_middle. }
  by rewrite H, app_nil_r.
Qed.

Lemma elem_of_Manager_get_query_set table p :
  p ∈ Manager_get_query_set table ↔ p ∈ table.
Proof. unfold Manager_get_query_set. by rewrite order_by_order_perm. Qed.

Lemma Page_select_published_filter now qs :
  Page_select_published now qs
  = filter (λ p, is_online p = true
                 ∧ publication_started now p ∧ not_expired now p) qs.
Proof.
  unfold Page_select_published, PublishedBase_select_published.
  rewrite !list_filter_filter. apply list_filter_iff. tauto.
Qed.

Lemma publication_started_iff now p :
  publication_started now p ↔
  publication_date p = None
  ∨ ∃ d, publication_date p = Some d ∧ (d ≤ now)%Z.
Proof.
  unfold publication_started. destruct (publication_date p) as [d|].
  - split; [eauto|]. intros [?|(d' & [= <-] & ?)]; done.
  - split; [by left|done].
Qed.

Lemma not_expired_iff now p :
  not_expired now p ↔
  expiry_date p = None ∨ ∃ d, expiry_date p = Some d ∧ (d > now)%Z.
Proof.
  unfold not_expired. destruct (expiry_date p) as [d|].
  - split; [eauto|]. intros [?|(d' & [= <-] & ?)]; done.
  - split; [by left|done].
Qed.

(** C7: while the publication manager asks for filtering, the query set
    of the manager holds exactly the rows of the table that are online,
    whose publication date is null or not after now, and whose expiry
    date is null or after now, in the default order. *)
Theorem published_filter_exact now pm table :
  active pm = true →
  PublishedModelManager_get_query_set (Page_select_published now) pm table
  = filter (λ p, is_online p = true
                 ∧ publication_started now p ∧ not_expired now p)
      (Manager_get_query_set table)
  ∧ ∀ p,
      p ∈ PublishedModelManager_get_query_set
            (Page_select_published now) pm table
      ↔ p ∈ table
        ∧ is_online p = true
        ∧ (publication_date p = None
           ∨ ∃ d, publication_date p = Some d ∧ (d ≤ now)%Z)
        ∧ (expiry_date p = None
           ∨ ∃ d, expiry_date p = Some d ∧ (d > now)%Z).
Proof.
  intros Hactive. unfold PublishedModelManager_get_query_set.
  rewrite Hactive, Page_select_published_filter. split; [done|].
  intros p. rewrite list_elem_of_filter, elem_of_Manager_get_query_set.
  rewrite publication_started_iff, not_expired_iff. tauto.
Qed.

Lemma published_filter_exact_witness :
  active PublicationManager_init = true
  ∧ PublishedModelManager_get_query_set (Page_select_published 1000)
      PublicationManager_init (table demo_store)
    = filter (λ p, is_online p = true
                   ∧ publication_started 1000 p ∧ not_expired 1000 p)
        (Manager_get_query_set (table demo_store)).
Proof.
  split; [reflexivity|].
  apply (published_filter_exact 1000 PublicationManager_init
           (table demo_store)). reflexivity.
Defined.

(** At time 1000: offline, not yet started and expired rows are left
    out, a row that expires at 1000 is already gone, a row that starts
    at 1000 is there. *)
Example published_filter_rows :
  PublishedModelManager_get_query_set (Page_select_published 1000)
    PublicationManager_init
    [timed_page 6 true (Some 1000%Z) (Some 1001%Z);
     timed_page 5 true None (Some 1000%Z);
     timed_page 4 true (Some 1001%Z) None;
     timed_page 3 false None None;
     timed_page 2 true (Some 5%Z) (Some 2000%Z);
     timed_page 1 true None None]
  = [timed_page 1 true None None;
     timed_page 2 true (Some 5%Z) (Some 2000%Z);
     timed_page 6 true (Some 1000%Z) (Some 1001%Z)].
Proof. vm_compute. reflexivity. Qed.

Lemma Model_save_Ok table p p' table' :
  Model_save table p = Ok (p', table') →
  p' ∈ table'
  ∧ id p' = match id p with
            | Some k => Some k
            | None => Some (fresh_id table)
            end
  ∧ site p' = site p
  ∧ parent p' = parent p
  ∧ is_online p' = is_online p
  ∧ ∀ row, row ∈ table → id row ≠ id p' → row ∈ table'.
Proof.
  unfold Model_save. destruct (existsb _ table); [done|].
  destruct (id p) as [k|] eqn:Hid.
  - case_bool_decide as Hin; intros [= <- <-].
    + split; [|rewrite Hid; repeat split].
      * apply list_elem_of_fmap in Hin as (row & Hrow & Hin).
        apply list_elem_of_fmap. exists row. split; [|done].
        by rewrite bool_decide_eq_true_2.
      * intros row Hrow Hne. apply list_elem_of_fmap. exists row.
        split; [|done]. by rewrite bool_decide_eq_false_2.
    + split; [|rewrite Hid; repeat split].
      * apply elem_of_app. right. by left.
      * intros row Hrow _. apply elem_of_app. by left.
  - intros [= <- <-]. split; [|repeat split].
    + apply elem_of_app. right. by left.
    + intros row Hrow _. apply elem_of_app. by left.
Qed.

Lemma Page_save_Ok st p p' st' :
  Page_save st p = Ok (p', st') →
  Model_save (table st) p = Ok (p', table st')
  ∧ cached st' = cache.add (cached st) p'.
Proof.
  unfold Page_save. destruct (Model_save (table st) p) as [[q t]|e]; [|done].
  by intros [= <- <-].
Qed.

Lemma elem_of_Page_objects env pm table p :
  p ∈ Page_objects env pm table ↔
  p ∈ table ∧ site p = current_site env
  ∧ (active pm = true →
       is_online p = true
       ∧ publication_started (now env) p ∧ not_expired (now env) p).
Proof.
  unfold Page_objects, PageBaseManager_get_query_set,
    PublishedModelManager_get_query_set.
  rewrite list_elem_of_filter. destruct (active pm).
  - rewrite Page_select_published_filter, list_elem_of_filter,
      elem_of_Manager_get_query_set. tauto.
  - rewrite elem_of_Manager_get_query_set. intuition discriminate.
Qed.

Lemma elem_of_Page_get_children env pm table self p :
  p ∈ Page_get_children env pm table self ↔
  ∃ k, id self = Some k ∧ parent p = Some k
       ∧ p ∈ table ∧ site p = current_site env
       ∧ (active pm = true →
            is_online p = true
            ∧ publication_started (now env) p ∧ not_expired (now env) p).
Proof.
  unfold Page_get_children. destruct (id self) as [k|].
  - rewrite list_elem_of_filter, elem_of_Page_objects. split.
    + intros (? & ? & ? & ?). by exists k.
    + intros (k' & [= <-] & ? & ? & ? & ?). done.
  - rewrite elem_of_nil. split; [done|]. by intros (k & ? & _).
Qed.

Lemma draft_scenario_run first second env st d y s d' st' :
  Page_save st d = Ok (d', st') →
  draft_scenario first second env st d y {| _stack := s |}
  = (Ok (d',
         Page_get_children env {| _stack := s ++ [first] |} (table st') y,
         Page_get_children env {| _stack := s ++ [first] |} (table st') y,
         Page_get_children env {| _stack := s ++ [second] |} (table st') y),
     {| _stack := s |},
     [Push first; Pop first; Push second; Pop second]).
Proof.
  intros Hsave. unfold draft_scenario. rewrite Hsave.
  unfold seq, bind, reads, ret, _begin, _end, PyList.append,
    Page_children_access, cached_getter, loaded. simpl.
  rewrite pop_snoc. simpl. by rewrite pop_snoc.
Qed.

Lemma draft_scenario_refused first second env st d y s e :
  Page_save st d = Raise e →
  draft_scenario first second env st d y {| _stack := s |}
  = (Raise e, {| _stack := s ++ [first] |}, [Push first]).
Proof.
  intros Hsave. unfold draft_scenario. rewrite Hsave. reflexivity.
Qed.

(** C8, as the code has it: the value pushed is [select_published],
    and [children] is memoised in the instance.  Under [True] the
    children query leaves out a child saved with the online flag off.
    After that value is popped and [False] is pushed, the query on a
    newly loaded instance of the parent holds the child, while the
    instance of the first query returns what it returned before.  When
    the database refuses the child, the error of [save] comes out and
    nothing is queried. *)
Theorem children_follow_publication_context env st d y k s :
  id y = Some k →
  parent d = Some k →
  site d = current_site env →
  is_online d = false →
  (∀ d' st', Page_save st d = Ok (d', st') →
     ∃ q1 q2 q3 t,
       draft_scenario true false env st d y {| _stack := s |}
       = (Ok (d', q1, q2, q3), {| _stack := s |}, t)
       ∧ is_online d' = false
       ∧ (d' ∉ q1)
       ∧ q2 = q1
       ∧ d' ∈ q3)
  ∧ (∀ e, Page_save st d = Raise e →
       ∃ pm t, draft_scenario true false env st d y {| _stack := s |}
               = (Raise e, pm, t)).
Proof.
  intros Hy Hparent Hsite Hoff. split.
  - intros d' st' Hsave. rewrite (draft_scenario_run _ _ _ _ _ _ _ _ _ Hsave).
    eexists _, _, _, _. split; [done|].
    destruct (Page_save_Ok _ _ _ _ Hsave) as [Hm _].
    destruct (Model_save_Ok _ _ _ _ Hm) as (Hin & _ & Hs & Hp & Ho & _).
    split; [congruence|]. split; [|split; [done|]].
    + rewrite elem_of_Page_get_children. intros (k' & _ & _ & _ & _ & Hf).
      rewrite active_snoc in Hf. destruct (Hf eq_refl) as [Hon _]. congruence.
    + apply elem_of_Page_get_children. exists k.
      rewrite active_snoc. repeat split; try congruence; done.
  - intros e Hsave. rewrite (draft_scenario_refused _ _ _ _ _ _ _ _ Hsave).
    eauto.
Qed.

Example draft_saved :
  Page_save demo_store (new_page (Some 1) 60 false) = Ok (draft, draft_store).
Proof. vm_compute. reflexivity. Qed.

Lemma children_follow_publication_context_witness :
  let d := new_page (Some 1) 60 false in
  (id home = Some 1 ∧ parent d = Some 1
   ∧ site d = current_site demo_env ∧ is_online d = false)
  ∧ ∃ q1 q2 q3 t,
      draft_scenario true false demo_env demo_store d home
        {| _stack := [] |}
      = (Ok (draft, q1, q2, q3), {| _stack := [] |}, t)
      ∧ is_online draft = false
      ∧ (draft ∉ q1)
      ∧ q2 = q1
      ∧ draft ∈ q3.
Proof.
  split; [done|].
  exact (proj1 (children_follow_publication_context demo_env demo_store
           (new_page (Some 1) 60 false) home 1 []
           eq_refl eq_refl eq_refl eq_refl) draft draft_store draft_saved).
Defined.

(** C8, as the specification has it, fails: with [False] pushed the
    children query on the small site holds the draft child, and with
    [True] pushed afterwards the query on a newly loaded instance
    leaves it out. *)
Lemma children_show_unpublished_counterexample :
  let d := new_page (Some 1) 60 false in
  ∃ d' q1 q2 q3 t,
    draft_scenario false true demo_env demo_store d home
      {| _stack := [] |}
    = (Ok (d', q1, q2, q3), {| _stack := [] |}, t)
    ∧ is_online d' = false
    ∧ d' ∈ q1
    ∧ d' ∉ q3.
Proof.
  eexists _, _, _, _, _. split; [vm_compute; reflexivity|].
  split; [reflexivity|]. split.
  - do 2 apply list_elem_of_further. by left.
  - intros H. repeat (apply elem_of_cons in H as [H|H]; [discriminate H|]).
    by apply elem_of_nil in H.
Qed.

(** ** The hierarchy cache *)

Lemma fresh_id_new table k : Some k ∈ id <$> table → k ≠ fresh_id table.
Proof.
  intros (row & Hrow & Hin)%list_elem_of_fmap. unfold fresh_id.
  assert (k ∈ omap id table) as Hk%max_list_elem_of_le; [|lia].
  apply list_elem_of_omap. eauto.
Qed.

Lemma collect_step_grows table keys : keys ⊆ collect_step table keys.
Proof. unfold collect_step. set_solver. Qed.

Lemma collect_contains table k : k ∈ collect table k.
Proof.
  unfold collect. induction (length table) as [|n IH]; simpl.
  - by apply elem_of_singleton.
  - by apply collect_step_grows.
Qed.

Lemma Page_delete_Ok st p k :
  id p = Some k →
  Page_delete st p
  = Ok (with_id None p,
        {| table := filter (survives (collect (table st) k)) (table st);
           cached := delete None (cached st) |}).
Proof.
  intros Hk. unfold Page_delete, Model_delete. by rewrite Hk.
Qed.

(** C9, where the code goes wrong: [delete] does not take the entry of
    the page out of the cache.  [super().delete()] removes the row of
    the page and leaves the instance without a key, so the
    [cache.remove(self)] that follows looks under no key: the entry
    that was under the key of the page is still there, for a row that
    is gone. *)
Theorem delete_leaves_cache_entry st p k :
  id p = Some k →
  ∃ p' st',
    Page_delete st p = Ok (p', st')
    ∧ id p' = None
    ∧ (Some k ∉ id <$> table st')
    ∧ (is_Some (cache.get (cached st) (Some k)) →
       is_Some (cache.get (cached st') (Some k))).
Proof.
  intros Hk. eexists _, _. split; [by apply Page_delete_Ok|].
  split; [done|]. simpl. split.
  - intros (row & Hid & Hrow)%list_elem_of_fmap.
    apply list_elem_of_filter in Hrow as [Hsurv _].
    unfold survives in Hsurv. rewrite <- Hid in Hsurv.
    apply Hsurv, collect_contains.
  - unfold cache.get. by rewrite lookup_delete_ne.
Qed.

Lemma delete_leaves_cache_entry_witness :
  id about = Some 2
  ∧ cache.get (cached demo_store) (Some 2) = Some about
  ∧ ∃ p' st',
      Page_delete demo_store about = Ok (p', st')
      ∧ id p' = None
      ∧ (Some 2 ∉ id <$> table st')
      ∧ (is_Some (cache.get (cached demo_store) (Some 2)) →
         is_Some (cache.get (cached st') (Some 2))).
Proof.
  split; [reflexivity|]. split; [vm_compute; reflexivity|].
  exact (delete_leaves_cache_entry demo_store about 2 eq_refl).
Defined.

(** The delete of [about] on the small site: its row and the row of
    [team] below it are gone, the cache still answers for both keys. *)
Example delete_about_run :
  ∃ st', Page_delete demo_store about = Ok (with_id None about, st')
         ∧ table st' = [home; news; other_root]
         ∧ cache.get (cached st') (Some 2) ≠ None
         ∧ cache.get (cached st') (Some 4) ≠ None.
Proof.
  eexists. split; [vm_compute; reflexivity|].
  split; [vm_compute; reflexivity|]. split; vm_compute; discriminate.
Qed.

(** * Further properties *)

(** ** Upload paths of static media *)

Example clean_path_component_photo :
  clean_path_component "My  Holiday_Photo (1).JPG" = "my-holiday-photo-1.jpg".
Proof. vm_compute. reflexivity. Qed.

Example upload_path_format_7 :
  upload_path_format "files" 12 "a.txt" = "uploads/files/12/a.txt".
Proof. vm_compute. reflexivity. Qed.

Ltac ascii_cases c := destruct c as [[] [] [] [] [] [] [] []].

Lemma path_char_clean c :
  path_char c = true →
  char_lower c = c ∧ whitespace_or_underscore c = false.
Proof. ascii_cases c; vm_compute; intros H; (discriminate H || done). Qed.

Lemma RE_NONALPHA_sub_forall s :
  string_forall path_char (RE_NONALPHA_sub s) = true.
Proof.
  induction s as [|c s IH]; [done|]. simpl.
  destruct (path_char c) eqn:Hc; [|done]. simpl. by rewrite Hc.
Qed.

Lemma RE_NONALPHA_sub_length s :
  String.length (RE_NONALPHA_sub s) ≤ String.length s.
Proof.
  induction s as [|c s IH]; [done|]. simpl.
  destruct (path_char c); simpl; lia.
Qed.

Lemma RE_WHITESPACE_sub_from_length in_run s :
  String.length (RE_WHITESPACE_sub_from in_run s) ≤ String.length s.
Proof.
  revert in_run. induction s as [|c s IH]; intros in_run; [done|]. simpl.
  destruct (whitespace_or_underscore c); [destruct in_run|]; simpl.
  - specialize (IH true). lia.
  - specialize (IH true). lia.
  - specialize (IH false). lia.
Qed.

Lemma str_lower_length s : String.length (str_lower s) = String.length s.
Proof. induction s as [|c s IH]; [done|]. simpl. by rewrite IH. Qed.

Lemma clean_path_component_fixed s :
  string_forall path_char s = true → clean_path_component s = s.
Proof.
  unfold clean_path_component, RE_WHITESPACE_sub.
  induction s as [|c s IH]; [done|]. simpl.
  intros [Hc Hs]%andb_prop. destruct (path_char_clean c Hc) as [Hl Hw].
  rewrite Hl, Hw. simpl. rewrite Hc. by rewrite IH.
Qed.

(** X1: a cleaned path component holds nothing but lower case letters,
    digits, dashes and dots (so no slash, no white space, no upper
    case letter), and is never longer than what went in. *)
Theorem clean_path_component_safe path :
  string_forall path_char (clean_path_component path) = true
  ∧ String.length (clean_path_component path) ≤ String.length path.
Proof.
  unfold clean_path_component, RE_WHITESPACE_sub. split.
  - apply RE_NONALPHA_sub_forall.
  - etrans; [apply RE_NONALPHA_sub_length|].
    etrans; [apply RE_WHITESPACE_sub_from_length|].
    by rewrite str_lower_length.
Qed.

(** X2: cleaning is idempotent: a cleaned component is left as it is
    by a second cleaning. *)
Theorem clean_path_component_idempotent path :
  clean_path_component (clean_path_component path)
  = clean_path_component path.
Proof.
  apply clean_path_component_fixed.
  unfold clean_path_component. apply RE_NONALPHA_sub_forall.
Qed.

Lemma string_app_length s t :
  String.length (s +:+ t) = String.length s + String.length t.
Proof. induction s as [|c s IH]; [done|]. simpl. by rewrite IH. Qed.

Lemma string_app_inv_tail s1 s2 t : s1 +:+ t = s2 +:+ t → s1 = s2.
Proof.
  revert s2. induction s1 as [|c s1 IH]; intros [|d s2] H; simpl in *.
  - done.
  - apply (f_equal String.length) in H.
    change (String.length t = S (String.length (s2 +:+ t))) in H.
    rewrite string_app_length in H. lia.
  - apply (f_equal String.length) in H.
    change (S (String.length (s1 +:+ t)) = String.length t) in H.
    rewrite string_app_length in H. lia.
  - injection H as -> H. f_equal. by apply IH.
Qed.

Lemma upload_path_format_inj folder_name filename v w :
  upload_path_format folder_name v filename
  = upload_path_format folder_name w filename → v = w.
Proof.
  unfold upload_path_format. intros H.
  do 3 apply (inj (String.app _)) in H.
  apply string_app_inv_tail in H. by apply (inj pretty) in H.
Qed.

Lemma get_upload_path_loop_result fuel storage folder_name filename v p :
  get_upload_path_loop fuel storage folder_name filename v = Some p →
  ∃ w, v ≤ w
       ∧ p = upload_path_format folder_name w filename
       ∧ (p ∉ storage)
       ∧ ∀ u, v ≤ u < w →
           upload_path_format folder_name u filename ∈ storage.
Proof.
  revert v. induction fuel as [|fuel IH]; intros v; [done|]. simpl.
  case_bool_decide as Hin.
  - intros (w & Hw & -> & Hfree & Hbelow)%IH. exists w.
    split; [lia|]. split; [done|]. split; [done|].
    intros u Hu. destruct (decide (u = v)) as [->|]; [done|].
    apply Hbelow. lia.
  - intros [= <-]. exists v. split; [done|]. split; [done|].
    split; [done|]. intros u Hu. lia.
Qed.

Lemma get_upload_path_loop_terminates fuel storage folder_name filename v
    (taken : gset string) :
  (∀ w, v ≤ w →
     upload_path_format folder_name w filename ∈ storage →
     upload_path_format folder_name w filename ∈ taken) →
  size taken < fuel →
  is_Some (get_upload_path_loop fuel storage folder_name filename v).
Proof.
  revert v taken. induction fuel as [|fuel IH]; intros v taken Htaken Hsize.
  - lia.
  - simpl. case_bool_decide as Hin; [|by eexists].
    apply (IH (v + 1) (taken ∖ {[upload_path_format folder_name v filename]})).
    + intros w Hw Hs. apply elem_of_difference. split.
      * apply Htaken; [lia|done].
      * intros Heq%elem_of_singleton%upload_path_format_inj. lia.
    + assert (upload_path_format folder_name v filename ∈ taken) as Hv.
      { apply Htaken; [lia|done]. }
      pose proof (size_difference taken
        {[upload_path_format folder_name v filename]}) as Hd.
      rewrite size_singleton in Hd.
      assert ({[upload_path_format folder_name v filename]} ⊆ taken)
        as Hsub by set_solver.
      specialize (Hd Hsub). assert (size taken ≠ 0); [|lia].
      intros Hz%size_empty_inv. set_solver.
Qed.

(** X3: the path [get_upload_path] returns is free in the storage, has
    the form uploads/folder/version/filename over the cleaned names,
    and its version is the least one, from 1 on, whose path is free. *)
Theorem get_upload_path_first_free fuel storage verbose_name_plural
    filename p :
  get_upload_path fuel storage verbose_name_plural filename = Some p →
  (p ∉ storage)
  ∧ ∃ version, 1 ≤ version
      ∧ p = upload_path_format (clean_path_component verbose_name_plural)
              version (clean_path_component filename)
      ∧ ∀ u, 1 ≤ u < version →
          upload_path_format (clean_path_component verbose_name_plural)
            u (clean_path_component filename) ∈ storage.
Proof.
  unfold get_upload_path.
  intros (w & Hw & -> & Hfree & Hbelow)%get_upload_path_loop_result.
  split; [done|]. by exists w.
Qed.

(** X4: with room for one round more than there are names in the
    storage, [get_upload_path] finds a path: the loop does not go on
    for ever over a finite storage. *)
Theorem get_upload_path_terminates fuel storage verbose_name_plural
    filename :
  size storage < fuel →
  is_Some (get_upload_path fuel storage verbose_name_plural filename).
Proof.
  intros Hsize. unfold get_upload_path.
  by apply (get_upload_path_loop_terminates _ _ _ _ _ storage).
Qed.

Lemma get_upload_path_first_free_witness :
  let storage : gset string :=
    {[ "uploads/files/1/a-b.txt"; "uploads/files/2/a-b.txt" ]} in
  get_upload_path 3 storage "Files" "A b.TXT" = Some "uploads/files/3/a-b.txt"
  ∧ "uploads/files/3/a-b.txt" ∉ storage.
Proof.
  assert (H : get_upload_path 3
    {[ "uploads/files/1/a-b.txt"; "uploads/files/2/a-b.txt" ]}
    "Files" "A b.TXT" = Some "uploads/files/3/a-b.txt")
    by (vm_compute; reflexivity).
  split; [exact H|].
  exact (proj1 (get_upload_path_first_free _ _ _ _ _ H)).
Defined.

Lemma get_upload_path_terminates_witness :
  let storage : gset string :=
    {[ "uploads/files/1/a-b.txt"; "uploads/files/2/a-b.txt" ]} in
  size storage < 3
  ∧ is_Some (get_upload_path 3 storage "Files" "A b.TXT").
Proof.
  assert (H : size ({[ "uploads/files/1/a-b.txt";
                       "uploads/files/2/a-b.txt" ]} : gset string) < 3).
  { vm_compute. lia. }
  split; [exact H|].
  exact (get_upload_path_terminates 3 _ "Files" "A b.TXT" H).
Defined.

(** ** Scopes of the publication manager *)

(** X5: a [select_published] scope around code that keeps its own
    scopes paired is transparent: the body runs with the value of the
    scope on top of the stack, and the scope returns or raises exactly
    what the body returned or raised, between one push and one pop of
    its value. *)
Theorem select_published_transparent {A} (v : bool) (body : M A) :
  Paired body →
  ∀ pm, ∃ r t,
    body {| _stack := _stack pm ++ [v] |}
      = (r, {| _stack := _stack pm ++ [v] |}, t)
    ∧ select_published v body pm = (r, pm, Push v :: t ++ [Pop v]).
Proof.
  intros Hbody pm.
  destruct (Paired_run body Hbody {| _stack := _stack pm ++ [v] |})
    as (r & t & E & _).
  exists r, t. split; [done|].
  destruct (select_published_run v body pm r t E) as (t' & E' & [->| ->]).
  - done.
  - by rewrite app_nil_r in E'.
Qed.

Lemma select_published_transparent_witness :
  Paired (select_published false (@raise unit (OtherError 7)))
  ∧ ∃ r t,
      select_published false (@raise unit (OtherError 7))
        {| _stack := [] ++ [true] |}
        = (r, {| _stack := [] ++ [true] |}, t)
      ∧ select_published true
          (select_published false (@raise unit (OtherError 7)))
          {| _stack := [] |}
        = (r, {| _stack := [] |}, Push true :: t ++ [Pop true]).
Proof.
  assert (H : Paired (select_published false (@raise unit (OtherError 7)))).
  { apply Paired_with, Paired_raise. }
  split; [exact H|].
  exact (select_published_transparent true _ H {| _stack := [] |}).
Defined.

(** X6: the innermost scope governs.  Inside a scope of [b] nested in a
    scope of [a], [select_published_active] yields [b]; once the inner
    scope is left it yields [a] again; afterwards the manager is as
    before. *)
Theorem nested_scopes_innermost_governs a b pm :
  select_published a
    (bind (select_published b select_published_active) (λ inner,
     bind select_published_active (λ outer, ret (inner, outer)))) pm
  = (Ok (b, a), pm, [Push a; Push b; Pop b; Pop a]).
Proof.
  destruct pm as [s].
  unfold select_published, seq, bind, try_finally, try_except, ret.
  rewrite begin_run. simpl. unfold PyList.append.
  rewrite select_published_active_total, active_snoc. simpl.
  rewrite end_snoc. simpl.
  rewrite select_published_active_total, active_snoc. simpl.
  by rewrite end_snoc.
Qed.

(** X7: a body that pops more than it pushed is caught at the end of
    the scope.  When the body leaves the stack empty, the [_end] of the
    scope raises [PublicationManagementError], and that error takes the
    place of whatever the body returned or raised. *)
Theorem select_published_underflow_masks {A} (v : bool) (body : M A)
    pm r t :
  body {| _stack := _stack pm ++ [v] |} = (r, {| _stack := [] |}, t) →
  select_published v body pm
  = (Raise PublicationManagementError, {| _stack := [] |}, Push v :: t).
Proof.
  intros Hbody.
  unfold select_published, seq, bind, try_finally, try_except, raise.
  rewrite begin_run. simpl. rewrite Hbody.
  destruct r as [a|e]; rewrite end_nil; by rewrite ?app_nil_r.
Qed.

Lemma select_published_underflow_masks_witness :
  (_end >> @raise unit (OtherError 3)) {| _stack := [] ++ [true] |}
  = (Raise (OtherError 3), {| _stack := [] |}, [Pop true])
  ∧ select_published true (_end >> @raise unit (OtherError 3))
      {| _stack := [] |}
    = (Raise PublicationManagementError, {| _stack := [] |},
       [Push true; Pop true]).
Proof.
  assert (H : (_end >> @raise unit (OtherError 3))
                {| _stack := _stack {| _stack := [] |} ++ [true] |}
              = (Raise (OtherError 3), {| _stack := [] |}, [Pop true]))
    by reflexivity.
  split; [exact H|].
  exact (select_published_underflow_masks true _ {| _stack := [] |} _ _ H).
Defined.

(** X8: the stack is last in, first out: after entering with the
    values [vs], as many exits pop them in the opposite order, none of
    them raises, and the stack is the one from before. *)
Theorem begins_ends_lifo vs pm :
  (begins vs >> ends (length vs)) pm
  = (Ok tt, pm, (Push <$> vs) ++ (Pop <$> reverse vs)).
Proof.
  destruct pm as [s]. unfold seq, bind.
  by rewrite begins_run, ends_run.
Qed.

(** ** Query sets *)

Lemma order_leb_total a b : order_leb a b = true ∨ order_leb b a = true.
Proof.
  destruct a as [x|], b as [y|]; simpl; auto.
  destruct (Nat.leb_spec x y); [by left|right]. apply Nat.leb_le. lia.
Qed.

Lemma order_leb_trans a b c :
  order_leb a b = true → order_leb b c = true → order_leb a c = true.
Proof.
  destruct a as [x|], b as [y|], c as [z|]; simpl; try done.
  rewrite !Nat.leb_le. lia.
Qed.

Lemma insert_by_order_sorted p qs :
  StronglySorted by_order qs → StronglySorted by_order (insert_by_order p qs).
Proof.
  induction 1 as [|q qs Hs IH Hall]; simpl.
  - repeat constructor.
  - destruct (order_leb (order p) (order q)) eqn:Hpq; simpl.
    + destruct (order_leb (order q) (order p)) eqn:Hqp; simpl.
      * constructor; [done|]. rewrite insert_by_order_perm.
        constructor; [done|done].
      * constructor; [by constructor|]. constructor; [done|].
        eapply Forall_impl; [exact Hall|]. intros x Hx.
        by eapply order_leb_trans.
    + constructor; [done|]. rewrite insert_by_order_perm.
      constructor; [|done].
      destruct (order_leb_total (order p) (order q)); [congruence|done].
Qed.

Lemma order_by_order_sorted table : StronglySorted by_order (order_by_order table).
Proof.
  unfold order_by_order.
  assert (H : ∀ acc, StronglySorted by_order acc →
    StronglySorted by_order
      (foldl (λ acc p, insert_by_order p acc) acc table)).
  { induction table as [|p table IH]; intros acc Hacc; [done|].
    simpl. by apply IH, insert_by_order_sorted. }
  apply H. constructor.
Qed.

Lemma StronglySorted_filter {A} (R : relation A) (P : A → Prop)
    `{∀ x, Decision (P x)} l :
  StronglySorted R l → StronglySorted R (filter P l).
Proof.
  induction 1 as [|x l Hs IH Hall]; [constructor|].
  rewrite filter_cons. destruct (decide (P x)); [|done].
  constructor; [done|]. apply Forall_forall. intros y Hy.
  apply list_elem_of_filter in Hy as [_ Hy].
  by eapply Forall_forall in Hall.
Qed.

Lemma filter_filter_sublist {A} (P Q : A → Prop)
    `{∀ x, Decision (P x), ∀ x, Decision (Q x)} l :
  filter P (filter Q l) `sublist_of` filter P l.
Proof.
  induction l as [|a l IH]; [done|].
  rewrite (filter_cons Q). destruct (decide (Q a)).
  - rewrite !filter_cons. destruct (decide (P a)); [by apply sublist_skip|done].
  - rewrite filter_cons. destruct (decide (P a)); [by apply sublist_cons|done].
Qed.

Lemma by_order_keys_ascend l :
  StronglySorted by_order l → StronglySorted keys_ascend l.
Proof.
  induction 1 as [|a l _ IH Hall]; constructor; [done|].
  eapply Forall_impl; [exact Hall|]. intros b Hab x y Ha Hb.
  unfold by_order in Hab. rewrite Ha, Hb in Hab. by apply Nat.leb_le.
Qed.

(** X9: query sets come in the default order: in the rows of
    [Page.objects], and in the children of a page, a row never comes
    before a row with a smaller ordering key, whatever the order of the
    table and the publication context. *)
Theorem query_sets_in_default_order env pm table self :
  StronglySorted keys_ascend (Page_objects env pm table)
  ∧ StronglySorted keys_ascend (Page_get_children env pm table self).
Proof.
  assert (Hobjects : StronglySorted by_order (Page_objects env pm table)).
  { unfold Page_objects, PageBaseManager_get_query_set,
      PublishedModelManager_get_query_set, Manager_get_query_set.
    apply StronglySorted_filter. destruct (active pm).
    - unfold Page_select_published, PublishedBase_select_published.
      do 3 apply StronglySorted_filter. apply order_by_order_sorted.
    - apply order_by_order_sorted. }
  split; [by apply by_order_keys_ascend|]. unfold Page_get_children.
  destruct (id self); [|constructor].
  by apply by_order_keys_ascend, StronglySorted_filter.
Qed.

(** X10: the publication filter only takes rows away.  What
    [Page.objects] holds under any context is a sub-list, in the same
    order, of what it holds when filtering is switched off; and it
    never holds a row of another site or a row that is not in the
    table. *)
Theorem Page_objects_filter_only_removes env pm table :
  Page_objects env pm table
    `sublist_of` Page_objects env {| _stack := _stack pm ++ [false] |} table
  ∧ ∀ p, p ∈ Page_objects env pm table →
      site p = current_site env ∧ p ∈ table.
Proof.
  split.
  - unfold Page_objects, PageBaseManager_get_query_set,
      PublishedModelManager_get_query_set.
    rewrite active_snoc. destruct (active pm); [|done].
    rewrite Page_select_published_filter. apply filter_filter_sublist.
  - intros p Hp. apply elem_of_Page_objects in Hp. tauto.
Qed.

(** X11: the table level hierarchy is a forest: a row is listed among
    the children of pages of one key only, that key is the one in its
    own parent column, and a root is a child of no page. *)
Theorem children_have_one_parent env pm table a b p :
  p ∈ Page_get_children env pm table a →
  (parent p = id a ∧ is_Some (parent p))
  ∧ (p ∈ Page_get_children env pm table b → id a = id b).
Proof.
  intros (k & Ha & Hp & _)%elem_of_Page_get_children. split.
  - rewrite Hp, Ha. by eauto.
  - intros (k' & Hb & Hp' & _)%elem_of_Page_get_children. congruence.
Qed.

Lemma children_have_one_parent_witness :
  about ∈ Page_get_children demo_env PublicationManager_init
            (table demo_store) home
  ∧ parent about = id home.
Proof.
  assert (H : about ∈ Page_get_children demo_env PublicationManager_init
                        (table demo_store) home).
  { vm_compute. by left. }
  split; [exact H|].
  exact (proj1 (proj1 (children_have_one_parent demo_env
    PublicationManager_init (table demo_store) home home about H))).
Defined.

(** ** Trails, cycles and forests *)

Section TrailFacts.

Context {E : Type}.
Variable parent : E → option E.
Variable children : E → list E.
Variable equal : E → E → bool.

Lemma trail_from_snoc above bs x y :
  trail_from parent above bs →
  last (above :: bs) = Some x →
  parent y = Some x →
  trail_from parent above (bs ++ [y]).
Proof.
  revert above. induction bs as [|b bs IH]; intros above Ht Hlast Hy; simpl.
  - simpl in Hlast. by injection Hlast as ->.
  - destruct Ht as [Hb Ht]. split; [done|].
    apply IH; [done| |done]. by rewrite last_cons_cons in Hlast.
Qed.

Lemma parent_chain_root_trail self ps :
  parent_chain parent self ps →
  root_trail parent (reverse ps ++ [self])
  ∧ last (reverse ps ++ [self]) = Some self.
Proof.
  revert self. induction ps as [|p ps IH]; intros self Hc; simpl in *.
  - by rewrite Hc.
  - destruct Hc as [Hp Hc]. destruct (IH p Hc) as [Hroot Hlast].
    rewrite reverse_cons. split; [|by rewrite last_snoc].
    destruct (reverse ps ++ [p]) as [|r bs] eqn:Hrev; [done|]. simpl.
    destruct Hroot as [Hr Ht]. split; [done|].
    by eapply trail_from_snoc.
Qed.

(** X12: the breadcrumb trail of a page starts at a root, every
    further entry has the entry before it as its parent, and the trail
    ends with the page itself; it is one longer than the list of the
    parents. *)
Theorem breadcrumbs_root_trail fuel self bs :
  breadcrumbs parent fuel self = Some bs →
  root_trail parent bs
  ∧ last bs = Some self
  ∧ ∃ ps, all_parents parent fuel self = Some ps
          ∧ length bs = S (length ps).
Proof.
  unfold breadcrumbs.
  destruct (all_parents parent fuel self) as [ps|] eqn:Hps; [|done].
  intros [= <-]. apply all_parents_chain in Hps.
  destruct (parent_chain_root_trail self ps Hps) as [Hroot Hlast].
  split; [done|]. split; [done|]. exists ps. split; [done|].
  rewrite length_app, length_reverse. simpl. lia.
Qed.

Lemma parent_chain_nth_parent k self ps q :
  parent_chain parent self ps →
  nth_parent parent k self = Some q →
  k ≤ length ps ∧ parent_chain parent q (drop k ps).
Proof.
  revert self ps. induction k as [|k IH]; intros self ps Hc; simpl.
  - intros [= <-]. split; [lia|]. by rewrite drop_0.
  - destruct (parent self) as [p|] eqn:Hp; [|done]. intros Hq.
    destruct ps as [|p' ps]; simpl in Hc; [congruence|].
    destruct Hc as [Hp' Hc]. assert (p' = p) as -> by congruence.
    destruct (IH p ps Hc Hq) as [Hle Hd]. split; [simpl; lia|done].
Qed.

(** X13: a page that is its own ancestor has no list of parents:
    when following the parent references from [self] comes back to
    [self], [all_parents] does not return, whatever room the recursion
    is given. *)
Theorem all_parents_cycle_never_returns n self :
  nth_parent parent (S n) self = Some self →
  ∀ fuel, all_parents parent fuel self = None.
Proof.
  intros Hcycle fuel.
  destruct (all_parents parent fuel self) as [ps|] eqn:Hps; [|done].
  apply all_parents_chain in Hps.
  destruct (parent_chain_nth_parent (S n) self ps self Hps Hcycle)
    as [Hle Hd].
  pose proof (parent_chain_unique parent self _ _ Hps Hd) as Heq.
  apply (f_equal length) in Heq. rewrite length_drop in Heq. lia.
Qed.

(** X14: in a forest of bounded depth, where children lie strictly
    deeper than their parent, [all_children] returns once the
    recursion has room for the depth; the page itself is not in the
    list, and everything in the list lies deeper than the page. *)
Theorem all_children_of_forest (depth : E → nat) (bound : nat) self :
  (∀ p c, c ∈ children p → depth p < depth c) →
  (∀ p, depth p ≤ bound) →
  ∃ ds, all_children children (S bound) self = Some ds
        ∧ (self ∉ ds)
        ∧ ∀ x, x ∈ ds → depth self < depth x.
Proof.
  intros Hdeeper Hbound.
  destruct (all_children_terminates children depth bound Hdeeper Hbound
              (S bound) self) as [ds Hds]; [lia|].
  exists ds. split; [done|]. split.
  - by eapply all_children_excludes_self.
  - intros x Hx. eapply descendant_deeper_than; [done|].
    by eapply all_children_sound.
Qed.

Lemma scan_absent self sibling_iter :
  (∀ y, y ∈ sibling_iter → equal y self = false) →
  scan equal self sibling_iter = None.
Proof.
  intros Hne. rewrite <- (app_nil_r sibling_iter).
  by rewrite scan_skip.
Qed.

(** X15: [next] and [prev] undo each other on neighbours: when [b]
    follows [a] among the children of their parent, with no earlier
    sibling equal to [a] and no later one equal to [b], then [next] of
    [a] is [b] and [prev] of [b] is [a]. *)
Theorem next_prev_inverse a b p before after :
  parent a = Some p →
  parent b = Some p →
  children p = before ++ a :: b :: after →
  equal a a = true →
  equal b b = true →
  (∀ y, y ∈ before → equal y a = false) →
  (∀ y, y ∈ after → equal y b = false) →
  next parent children equal a = Some b
  ∧ prev parent children equal b = Some a.
Proof.
  intros Ha Hb Hc Haa Hbb Hbefore Hafter. split.
  - unfold next, siblings. rewrite Ha, Hc.
    rewrite scan_skip by done. by rewrite scan_found.
  - unfold prev, siblings. rewrite Hb, Hc.
    rewrite reverse_app, !reverse_cons, <- !app_assoc. simpl.
    rewrite scan_skip.
    + by rewrite scan_found.
    + intros y Hy. rewrite elem_of_reverse in Hy. by apply Hafter.
Qed.

End TrailFacts.

Lemma breadcrumbs_root_trail_witness :
  breadcrumbs (Page_parent demo_store) 3 team = Some [home; about; team]
  ∧ root_trail (Page_parent demo_store) [home; about; team].
Proof.
  assert (H : breadcrumbs (Page_parent demo_store) 3 team
              = Some [home; about; team]) by (vm_compute; reflexivity).
  split; [exact H|].
  exact (proj1 (breadcrumbs_root_trail (Page_parent demo_store) 3 team _ H)).
Defined.

Lemma all_parents_cycle_never_returns_witness :
  let self := stored 1 (new_page (Some 2) 10 true) in
  nth_parent (Page_parent looped_store) 2 self = Some self
  ∧ ∀ fuel, Page_get_all_parents looped_store fuel self = None.
Proof.
  assert (H : nth_parent (Page_parent looped_store) 2
                (stored 1 (new_page (Some 2) 10 true))
              = Some (stored 1 (new_page (Some 2) 10 true)))
    by (vm_compute; reflexivity).
  split; [exact H|].
  exact (all_parents_cycle_never_returns (Page_parent looped_store) 1 _ H).
Defined.

Lemma demo_children_deeper p c :
  c ∈ Page_children demo_env PublicationManager_init demo_store p →
  demo_depth p < demo_depth c.
Proof.
  unfold Page_children.
  intros (k & Hk & Hp & Hin & _)%elem_of_Page_get_children.
  rewrite demo_table in Hin. unfold demo_depth. rewrite Hk.
  repeat (apply elem_of_cons in Hin as [->|Hin];
          [vm_compute in Hp; try discriminate Hp;
           injection Hp as <-; vm_compute; lia|]).
  by apply elem_of_nil in Hin.
Qed.

Lemma demo_depth_bounded p : demo_depth p ≤ 2.
Proof.
  unfold demo_depth.
  destruct (id p) as [[|[|[|[|[|k]]]]]|]; lia.
Qed.

Lemma all_children_of_forest_witness :
  let children := Page_children demo_env PublicationManager_init demo_store in
  (∀ p c, c ∈ children p → demo_depth p < demo_depth c)
  ∧ (∀ p, demo_depth p ≤ 2)
  ∧ ∃ ds, all_children children 3 home = Some ds
          ∧ (home ∉ ds)
          ∧ ∀ x, x ∈ ds → demo_depth home < demo_depth x.
Proof.
  split; [exact demo_children_deeper|]. split; [exact demo_depth_bounded|].
  exact (all_children_of_forest
           (Page_children demo_env PublicationManager_init demo_store)
           demo_depth 2 home demo_children_deeper demo_depth_bounded).
Defined.

Lemma next_prev_inverse_witness :
  Page_next demo_env PublicationManager_init demo_store about = Some news
  ∧ Page_prev demo_env PublicationManager_init demo_store news = Some about.
Proof.
  set (ch := Page_children demo_env PublicationManager_init demo_store).
  assert (H1 : Page_parent demo_store about = Some home) by (vm_compute; done).
  assert (H2 : Page_parent demo_store news = Some home) by (vm_compute; done).
  assert (H3 : ch home = [] ++ about :: news :: []) by (vm_compute; done).
  assert (H4 : Page_eq about about = true) by (vm_compute; done).
  assert (H5 : Page_eq news news = true) by (vm_compute; done).
  assert (H6 : ∀ y : Page, y ∈ @nil Page → Page_eq y about = false).
  { intros y Hy. by apply elem_of_nil in Hy. }
  assert (H7 : ∀ y : Page, y ∈ @nil Page → Page_eq y news = false).
  { intros y Hy. by apply elem_of_nil in Hy. }
  exact (next_prev_inverse (Page_parent demo_store) ch Page_eq
           about news home [] [] H1 H2 H3 H4 H5 H6 H7).
Defined.


Example draft_store_table :
  table draft_store = [home; about; news; team; other_root; draft].
Proof. vm_compute. reflexivity. Qed.


(** ** The store under save, delete and the admin actions *)

Lemma filter_all {A} (P : A → Prop) `{∀ x, Decision (P x)} (l : list A) :
  (∀ x, x ∈ l → P x) → filter P l = l.
Proof.
  induction l as [|a l IH]; intros Hall; [done|].
  rewrite filter_cons, decide_True by (apply Hall; by left).
  f_equal. apply IH. intros x Hx. apply Hall. by right.
Qed.

Lemma fmap_key_inj (table : list Page) a b :
  unique_keys table → a ∈ table → b ∈ table → id a = id b → a = b.
Proof.
  unfold unique_keys. induction table as [|row table IH]; intros Hnd Ha Hb Hid.
  - by apply elem_of_nil in Ha.
  - rewrite fmap_cons in Hnd. apply NoDup_cons in Hnd as [Hnot Hnd].
    apply elem_of_cons in Ha as [->|Ha]; apply elem_of_cons in Hb as [->|Hb].
    + done.
    + destruct Hnot. rewrite Hid. by apply list_elem_of_fmap_2.
    + destruct Hnot. rewrite <- Hid. by apply list_elem_of_fmap_2.
    + by apply IH.
Qed.

Lemma collect_step_closed table keys :
  (∀ row j, row ∈ table → parent_among keys row → id row = Some j →
            j ∈ keys) →
  collect_step table keys = keys.
Proof.
  intros Hclosed. unfold collect_step. apply set_eq. intros x.
  rewrite elem_of_union, elem_of_list_to_set, list_elem_of_omap. split.
  - intros [Hx|(row & Hrow & Hid)]; [done|].
    apply list_elem_of_filter in Hrow as [Hp Hrow]. by eapply Hclosed.
  - by left.
Qed.

Lemma collect_closed table k :
  (∀ row j, row ∈ table → parent_among {[k]} row → id row = Some j →
            j ∈ ({[k]} : gset nat)) →
  collect table k = {[k]}.
Proof.
  intros Hclosed. unfold collect.
  induction (length table) as [|n IH]; [done|]. simpl. rewrite IH.
  by apply collect_step_closed.
Qed.

(** X17: saving a new page and deleting it again restores the table,
    in a table whose parent columns all refer to rows, but not the
    cache: the instance comes back without a key, and the entry that
    [save] made under the new key is still there. *)
Theorem save_then_delete_restores_table st p p1 st1 :
  id p = None →
  referential (table st) →
  Page_save st p = Ok (p1, st1) →
  ∃ p2 st2, Page_delete st1 p1 = Ok (p2, st2)
            ∧ table st2 = table st
            ∧ id p2 = None
            ∧ is_Some (cache.get (cached st2) (id p1)).
Proof.
  intros Hnew Href Hsave.
  destruct (Page_save_Ok _ _ _ _ Hsave) as [Hm Hc].
  destruct (Model_save_Ok _ _ _ _ Hm) as (_ & Hid & _).
  rewrite Hnew in Hid.
  assert (Htable : table st1 = table st ++ [p1]).
  { unfold Model_save in Hm. rewrite Hnew in Hm.
    destruct (existsb _ (table st)); [done|]. by injection Hm as <- <-. }
  assert (Hfresh : ∀ row, row ∈ table st → id row ≠ Some (fresh_id (table st))).
  { intros row Hrow Hrid.
    apply (fresh_id_new (table st) (fresh_id (table st))); [|done].
    rewrite <- Hrid. by apply list_elem_of_fmap_2. }
  assert (Hcollect : collect (table st1) (fresh_id (table st))
                     = {[fresh_id (table st)]}).
  { apply collect_closed. intros row j Hrow Hp Hj. rewrite Htable in Hrow.
    apply elem_of_app in Hrow as [Hrow|Hrow].
    - unfold parent_among in Hp.
      destruct (parent row) as [q|] eqn:Hq; [|done].
      apply elem_of_singleton in Hp as ->.
      destruct (fresh_id_new (table st) (fresh_id (table st))); [|done].
      by eapply Href.
    - apply list_elem_of_singleton in Hrow as ->.
      rewrite Hid in Hj. injection Hj as <-. by apply elem_of_singleton. }
  rewrite (Page_delete_Ok st1 p1 _ Hid). eexists _, _. split; [done|].
  simpl. rewrite Hcollect, Htable. split; [|split; [done|]].
  - rewrite filter_app, filter_cons, decide_False, filter_nil, app_nil_r.
    + apply filter_all. intros row Hrow. unfold survives.
      destruct (id row) as [j|] eqn:Hj; [|done].
      intros ->%elem_of_singleton. by eapply Hfresh.
    + unfold survives. rewrite Hid. intros Hs. apply Hs.
      by apply elem_of_singleton.
  - exists p1. unfold cache.get. rewrite Hc, Hid. unfold cache.add.
    rewrite Hid. rewrite lookup_delete_ne by done. apply lookup_insert_eq.
Qed.

Lemma save_then_delete_restores_table_witness :
  id (new_page (Some 1) 60 false) = None
  ∧ referential (table demo_store)
  ∧ Page_save demo_store (new_page (Some 1) 60 false) = Ok (draft, draft_store)
  ∧ ∃ p2 st2, Page_delete draft_store draft = Ok (p2, st2)
              ∧ table st2 = table demo_store
              ∧ id p2 = None
              ∧ is_Some (cache.get (cached st2) (id draft)).
Proof.
  assert (H : referential (table demo_store)).
  { intros row k Hrow Hk. rewrite demo_table in Hrow |- *.
    repeat (apply elem_of_cons in Hrow as [->|Hrow];
            [vm_compute in Hk; try discriminate Hk; injection Hk as <-;
             apply (bool_decide_eq_true_1 (_ ∈ _)); vm_compute; reflexivity|]).
    by apply elem_of_nil in Hrow. }
  split; [reflexivity|]. split; [exact H|]. split; [exact draft_saved|].
  exact (save_then_delete_restores_table demo_store
           (new_page (Some 1) 60 false) draft draft_store
           eq_refl H draft_saved).
Defined.

Lemma Page_save_coherent st p p' st' :
  coherent st → Page_save st p = Ok (p', st') → coherent st'.
Proof.
  intros Hco Hsave key q.
  destruct (Page_save_Ok _ _ _ _ Hsave) as [Hm Hc].
  destruct (Model_save_Ok _ _ _ _ Hm) as (Hin & _ & _ & _ & _ & Hkeep).
  unfold cache.get. rewrite Hc. unfold cache.add.
  destruct (decide (key = id p')) as [->|Hne].
  - rewrite lookup_insert_eq. by intros [= <-].
  - rewrite lookup_insert_ne by done. intros Hq.
    destruct (Hco key q Hq) as [Hid Hrow]. split; [done|].
    apply Hkeep; [done|congruence].
Qed.

(** X18: [save] keeps the cache in step with the table, [delete] does
    not.  If every entry of the cache sits under its own identity and
    is a row of the table, that is still so after any run of saves,
    refused ones included; after the delete of a page that has an
    entry it is no longer so, because the row goes and the entry
    stays. *)
Theorem saves_keep_cache_coherent st cs p k :
  coherent st →
  (Forall only_saves cs → coherent (run_calls st cs))
  ∧ (id p = Some k →
     is_Some (cache.get (cached st) (Some k)) →
     ∀ p' st', Page_delete st p = Ok (p', st') → ¬ coherent st').
Proof.
  intros Hco. split.
  - intros Hcs. revert st Hco. unfold run_calls.
    induction Hcs as [|c cs Hc _ IH]; intros st Hco; [done|].
    simpl. apply IH. destruct c as [q|q|q]; simpl in *; try done.
    destruct (Page_save st q) as [[q' st']|e] eqn:Hs; [|done].
    by eapply Page_save_coherent.
  - intros Hk [q Hq] p' st'. rewrite (Page_delete_Ok st p k Hk).
    intros [= <- <-] Hco'.
    destruct (Hco _ _ Hq) as [Hid _].
    destruct (Hco' (Some k) q) as [_ Hrow].
    { unfold cache.get in *. simpl. by rewrite lookup_delete_ne. }
    simpl in Hrow. apply list_elem_of_filter in Hrow as [Hsurv _].
    unfold survives in Hsurv. rewrite Hid in Hsurv.
    apply Hsurv, collect_contains.
Qed.

Lemma saves_keep_cache_coherent_witness :
  coherent empty_store
  ∧ Forall only_saves
      [CallSave (new_page None 10 true); CallSave (new_page (Some 1) 20 true);
       CallSave (new_page (Some 1) 20 true)]
  ∧ coherent (run_calls empty_store
      [CallSave (new_page None 10 true); CallSave (new_page (Some 1) 20 true);
       CallSave (new_page (Some 1) 20 true)]).
Proof.
  assert (H1 : coherent empty_store).
  { intros key q Hq. unfold cache.get in Hq. simpl in Hq.
    by rewrite lookup_empty in Hq. }
  assert (H2 : Forall only_saves
      [CallSave (new_page None 10 true); CallSave (new_page (Some 1) 20 true);
       CallSave (new_page (Some 1) 20 true)]).
  { repeat constructor. }
  split; [exact H1|]. split; [exact H2|].
  exact (proj1 (saves_keep_cache_coherent empty_store _ blank_page 0 H1) H2).
Defined.

(** The third save above is refused: its order and its URL title under
    the same parent are taken. *)
Example duplicate_save_refused :
  Page_save (run_calls empty_store
               [CallSave (new_page None 10 true);
                CallSave (new_page (Some 1) 20 true)])
    (new_page (Some 1) 20 true)
  = Raise IntegrityError.
Proof. vm_compute. reflexivity. Qed.

Lemma elem_of_QuerySet_update change queryset table x :
  x ∈ QuerySet_update change queryset table ↔
  ∃ row, row ∈ table
         ∧ ((row ∈ queryset ∧ x = change row)
            ∨ ((row ∉ queryset) ∧ x = row)).
Proof.
  unfold QuerySet_update. rewrite list_elem_of_fmap. split.
  - intros (row & -> & Hrow). exists row. split; [done|].
    case_bool_decide; [by left|by right].
  - intros (row & Hrow & [[Hin ->]|[Hout ->]]); exists row;
      (split; [|done]).
    + by rewrite bool_decide_eq_true_2.
    + by rewrite bool_decide_eq_false_2.
Qed.

(** X19: the admin actions and the publication filter.  After
    [unpublish_selected], no selected row shows in [Page.objects] under
    a filtering context; after [publish_selected], every selected row
    of the current site that is inside its publication window shows,
    with the online flag set.  Keys are unique in the table. *)
Theorem admin_actions_govern_visibility env pm st queryset r :
  unique_keys (table st) →
  r ∈ queryset →
  r ∈ table st →
  (active pm = true →
   ∀ x, x ∈ Page_objects env pm
              (table (PageBaseAdmin_unpublish_selected st queryset)) →
        id x ≠ id r)
  ∧ (site r = current_site env →
     publication_started (now env) r →
     not_expired (now env) r →
     set_is_online true r
       ∈ Page_objects env pm
           (table (PageBaseAdmin_publish_selected st queryset))).
Proof.
  intros Hkeys Hsel Hrow. split.
  - intros Hactive x (Hx & _ & Hpub)%elem_of_Page_objects Hid.
    destruct (Hpub Hactive) as [Hon _]. simpl in Hx.
    apply elem_of_QuerySet_update in Hx
      as (row & Hin & [[_ ->]|[Hout ->]]); [done|].
    by rewrite (fmap_key_inj _ _ _ Hkeys Hin Hrow Hid) in Hout.
  - intros Hsite Hstart Hexp. apply elem_of_Page_objects. split; [|done].
    simpl. apply elem_of_QuerySet_update. exists r. split; [done|]. by left.
Qed.

Lemma admin_actions_govern_visibility_witness :
  unique_keys (table demo_store)
  ∧ about ∈ [about; team]
  ∧ about ∈ table demo_store
  ∧ ∀ x, x ∈ Page_objects demo_env PublicationManager_init
               (table (PageBaseAdmin_unpublish_selected demo_store
                         [about; team])) →
         id x ≠ id about.
Proof.
  assert (H1 : unique_keys (table demo_store)).
  { unfold unique_keys. rewrite demo_table.
    apply (bool_decide_eq_true_1 (NoDup _)). vm_compute. reflexivity. }
  assert (H2 : about ∈ [about; team]) by (by left).
  assert (H3 : about ∈ table demo_store).
  { rewrite demo_table. apply list_elem_of_further. by left. }
  split; [exact H1|]. split; [exact H2|]. split; [exact H3|].
  exact (proj1 (admin_actions_govern_visibility demo_env
    PublicationManager_init demo_store [about; team] about H1 H2 H3)
    eq_refl).
Defined.

(** X20: the admin actions go past the cache.  [unpublish_selected]
    updates the table and nothing else, so a page that is in the cache
    with the online flag on, and that is selected, is still online in
    the cache afterwards while no such row is left in the table: the
    cache is no longer in step with the table. *)
Theorem unpublish_selected_leaves_cache_stale st queryset r :
  cache.get (cached st) (id r) = Some r →
  r ∈ queryset →
  is_online r = true →
  cache.get (cached (PageBaseAdmin_unpublish_selected st queryset)) (id r)
    = Some r
  ∧ (r ∉ table (PageBaseAdmin_unpublish_selected st queryset))
  ∧ ¬ coherent (PageBaseAdmin_unpublish_selected st queryset).
Proof.
  intros Hget Hsel Hon.
  assert (Hgone : r ∉ table (PageBaseAdmin_unpublish_selected st queryset)).
  { simpl. intros (row & Hin & [[_ Heq]|[Hout Heq]])%elem_of_QuerySet_update.
    - apply (f_equal is_online) in Heq. simpl in Heq. congruence.
    - by subst. }
  split; [done|]. split; [done|].
  intros Hco. by destruct (Hco _ _ Hget) as [_ ?].
Qed.

Lemma unpublish_selected_leaves_cache_stale_witness :
  cache.get (cached demo_store) (id about) = Some about
  ∧ about ∈ [about; team]
  ∧ is_online about = true
  ∧ ¬ coherent (PageBaseAdmin_unpublish_selected demo_store [about; team]).
Proof.
  assert (H1 : cache.get (cached demo_store) (id about) = Some about)
    by (vm_compute; reflexivity).
  assert (H2 : about ∈ [about; team]) by (by left).
  split; [exact H1|]. split; [exact H2|]. split; [reflexivity|].
  exact (proj2 (proj2 (unpublish_selected_leaves_cache_stale demo_store
    [about; team] about H1 H2 eq_refl))).
Defined.

(** ** The admin views *)

Lemma elem_of_QuerySet_exclude_id_in ids queryset x :
  x ∈ QuerySet_exclude_id_in ids queryset ↔
  x ∈ queryset ∧ is_Some (id x) ∧ (None ∉ ids) ∧ (id x ∉ ids).
Proof.
  unfold QuerySet_exclude_id_in. rewrite list_elem_of_filter. tauto.
Qed.

Lemma descendant_mono {E} (children1 children2 : E → list E) p x :
  (∀ q c, c ∈ children1 q → c ∈ children2 q) →
  descendant children1 p x → descendant children2 p x.
Proof.
  intros Hsub. induction 1 as [p c Hc|p c d Hc _ IH].
  - apply descendant_child. by apply Hsub.
  - eapply descendant_deeper; [by apply Hsub|done].
Qed.

Lemma descendant_is_child {E} (children : E → list E) p x :
  descendant children p x → ∃ q, x ∈ children q.
Proof. induction 1 as [p c Hc|p c d _ _ IH]; eauto. Qed.

Lemma elem_of_table_children env st p c :
  c ∈ table_children env st p ↔
  ∃ k, id p = Some k ∧ parent c = Some k
       ∧ c ∈ table st ∧ site c = current_site env.
Proof.
  unfold table_children. destruct (id p) as [k|].
  - rewrite list_elem_of_filter. split.
    + intros [[??] ?]. by exists k.
    + intros (k' & [= <-] & ? & ? & ?). done.
  - rewrite elem_of_nil. split; [done|]. by intros (k & ? & _).
Qed.

(** X21: the parents that the page form offers.  For a page [o], no
    offered parent is [o] itself (by key) or a page that [all_children]
    reaches from [o], that is, through children shown in the
    publication context of the request; when filtering is off these
    are all pages below [o] in the table of the site.  When [o] and
    the pages reached have keys, every other keyed page of
    [Page.objects] is offered.  Without a page, all of [Page.objects]
    is offered. *)
Theorem valid_parents_exclude_descendants env pm st fuel o vs :
  PageAdmin_valid_parents env pm st fuel (Some o) = Some vs →
  (∀ x, x ∈ vs →
     x ∈ Page_objects env pm (table st)
     ∧ id x ≠ id o
     ∧ (∀ d, descendant (Page_children env pm st) o d → id x ≠ id d)
     ∧ (active pm = false →
        ∀ d, descendant (table_children env st) o d → id x ≠ id d))
  ∧ (is_Some (id o) →
     (∀ d, descendant (Page_children env pm st) o d → is_Some (id d)) →
     ∀ x, x ∈ Page_objects env pm (table st) →
          is_Some (id x) →
          id x ≠ id o →
          (∀ d, descendant (Page_children env pm st) o d → id x ≠ id d) →
          x ∈ vs)
  ∧ PageAdmin_valid_parents env pm st fuel None
    = Some (Page_objects env pm (table st)).
Proof.
  unfold PageAdmin_valid_parents, Page_get_all_children.
  destruct (all_children (Page_children env pm st) fuel o) as [ds|] eqn:Hds;
    [|done].
  intros [= <-]. split; [|split; [|done]].
  - intros x (Hx & _ & _ & Hnot)%elem_of_QuerySet_exclude_id_in.
    assert (Hshown : ∀ d, descendant (Page_children env pm st) o d →
                          id x ≠ id d).
    { intros d Hd Hid. apply Hnot. rewrite Hid. apply elem_of_app. left.
      apply list_elem_of_fmap_2. by eapply all_children_complete. }
    split; [done|]. split; [|split; [done|]].
    + intros Hid. apply Hnot. rewrite Hid. apply elem_of_app. right. by left.
    + intros Hoff d Hd. apply Hshown.
      eapply descendant_mono; [|exact Hd].
      intros q c. unfold Page_children.
      rewrite elem_of_table_children, elem_of_Page_get_children.
      intros (k' & ? & ? & ? & ?). exists k'. rewrite Hoff.
      repeat split; done.
  - intros Ho Hkeys x Hx Hsome Hne Hbelow.
    apply elem_of_QuerySet_exclude_id_in. split; [done|]. split; [done|].
    split.
    + intros [Hn|Hn]%elem_of_app.
      * apply list_elem_of_fmap in Hn as (d & Hd & Hin).
        destruct (Hkeys d) as [k Hk]; [by eapply all_children_sound|].
        congruence.
      * apply list_elem_of_singleton in Hn. destruct Ho as [k Hk]. congruence.
    + intros [Hn|Hn]%elem_of_app.
      * apply list_elem_of_fmap in Hn as (d & Hd & Hin).
        apply (Hbelow d); [by eapply all_children_sound|done].
      * apply list_elem_of_singleton in Hn. done.
Qed.

Lemma valid_parents_exclude_descendants_witness :
  PageAdmin_valid_parents demo_env PublicationManager_init demo_store 3
    (Some about) = Some [home; news; other_root]
  ∧ ∀ x, x ∈ [home; news; other_root] → id x ≠ id about.
Proof.
  assert (H : PageAdmin_valid_parents demo_env PublicationManager_init
                demo_store 3 (Some about) = Some [home; news; other_root])
    by (vm_compute; reflexivity).
  split; [exact H|].
  intros x Hx.
  exact (proj1 (proj2 (proj1 (valid_parents_exclude_descendants demo_env
    PublicationManager_init demo_store 3 about _ H) x Hx))).
Defined.

(** Under a filtering context the page 3, which lies below the root 1
    behind the offline page 2, is offered as a parent of the root;
    with filtering off it is not. *)
Example valid_parents_behind_hidden_page :
  PageAdmin_valid_parents demo_env PublicationManager_init
    hidden_branch_store 3 (Some (stored 1 (new_page None 10 true)))
  = Some [stored 3 (new_page (Some 2) 30 true)]
  ∧ PageAdmin_valid_parents demo_env {| _stack := [false] |}
      hidden_branch_store 3 (Some (stored 1 (new_page None 10 true)))
    = Some [].
Proof. split; vm_compute; reflexivity. Qed.

Lemma insert_content_item_length item sorted :
  length (insert_content_item item sorted) = S (length sorted).
Proof.
  induction sorted as [|x sorted IH]; [done|]. simpl.
  destruct (String.ltb _ _); simpl; [done|]. by rewrite IH.
Qed.

Lemma sort_content_items_length items :
  length (sort_content_items items) = length items.
Proof.
  unfold sort_content_items.
  assert (H : ∀ acc, length (foldl (λ acc item, insert_content_item item acc)
                               acc items) = length acc + length items).
  { induction items as [|item items IH]; intros acc; simpl; [lia|].
    rewrite IH, insert_content_item_length. lia. }
  by rewrite H.
Qed.


(** ** The template context of a page *)

(** X23: the template context of a page has exactly the seven SEO
    keys.  Its title is the browser title if there is one and the
    title otherwise; its header is the title, also when a short title
    is set (the context of the base class would show the short title
    in both places); the other five entries are the columns of the
    page. *)
Theorem PageBase_context_data self :
  dom (PageBase_get_context_data self)
  = ({[ "meta_description"; "meta_keywords"; "robots_index";
        "robots_archive"; "robots_follow"; "title"; "header" ]}
     : gset string)
  ∧ PageBase_get_context_data self !! "title"
    = Some (Text (str_or (browser_title self) (title self)))
  ∧ PageBase_get_context_data self !! "header" = Some (Text (title self))
  ∧ EntityBase_get_context_data (PageBase_unicode self) self !! "header"
    = Some (Text (str_or (short_title self) (title self)))
  ∧ PageBase_get_context_data self !! "meta_description"
    = Some (Text (meta_description self))
  ∧ PageBase_get_context_data self !! "meta_keywords"
    = Some (Text (meta_keywords self))
  ∧ PageBase_get_context_data self !! "robots_index"
    = Some (Flag (robots_index self))
  ∧ PageBase_get_context_data self !! "robots_archive"
    = Some (Flag (robots_archive self))
  ∧ PageBase_get_context_data self !! "robots_follow"
    = Some (Flag (robots_follow self)).
Proof.
  unfold PageBase_get_context_data, EntityBase_get_context_data,
    dict_update, PageBase_unicode.
  split.
  - rewrite dom_union_L, !dom_insert_L, dom_empty_L. set_solver.
  - repeat split; by simplify_map_eq.
Qed.

(** X24: what the template gets from [render]: the entries the caller
    passes win over those of the page, the entries of the page the
    caller does not name are passed on as they are, and so the seven
    keys of the page are always there; passing no context is the same
    as passing an empty one. *)
Theorem render_context_precedence self context k :
  (∀ v, default ∅ context !! k = Some v →
        EntityBase_render_context self context !! k = Some v)
  ∧ (default ∅ context !! k = None →
     EntityBase_render_context self context !! k
     = PageBase_get_context_data self !! k)
  ∧ (k ∈ dom (PageBase_get_context_data self) →
     is_Some (EntityBase_render_context self context !! k))
  ∧ EntityBase_render_context self None
    = PageBase_get_context_data self
  ∧ EntityBase_render_context self (Some ∅)
    = PageBase_get_context_data self.
Proof.
  unfold EntityBase_render_context, dict_update.
  split; [|split; [|split; [|split]]].
  - intros v Hv. by apply lookup_union_Some_l.
  - intros Hk. by rewrite lookup_union_r.
  - intros [v Hv]%elem_of_dom.
    destruct (default ∅ context !! k) as [w|] eqn:Hw.
    + exists w. by apply lookup_union_Some_l.
    + exists v. by rewrite lookup_union_r.
  - simpl. by rewrite (left_id_L ∅ (∪)).
  - simpl. by rewrite (left_id_L ∅ (∪)).
Qed.

(** ** Descendants under the publication filter *)


